(** * Cosmologist: the document-join engine (src/lib/join.ts) and the column
    transforms it uses (src/lib/transforms.ts), as a shallow embedding.

    Modelling conventions.
    - Cell values are JSON values.  Arrays and objects carry a reference:
      [Some r] for an object owned by the caller (a value found in an input
      row, identity [r]), [None] for an object allocated by the engine during
      the call.  [===] on arrays and objects compares these references.
    - A JS object ([Record<string, any>]) is an association list in property
      order; [oset] replaces a property in place or appends it, as an
      assignment does for a key that is not an array index.
    - Strings are ASCII strings.  [localeCompare] is the comparison of the
      root collation of ICU (the default of V8) on them, at tertiary strength.
    - [Number(s)] is [StringToNumber]: white space trimmed, decimal literals
      with sign, fraction and exponent, [Infinity], [0x]/[0o]/[0b] literals,
      rounded to the nearest double; NaN otherwise.
    - [Array.prototype.sort] is stable; for a consistent comparator every
      stable sort returns the same array, modelled by insertion sort. *)

From Stdlib Require Import ZArith List Ascii String Bool.
From Stdlib Require Import Sorting.Sorted Sorting.Permutation.
From stdpp Require Import base gmap sets list strings.

Set Implicit Arguments.
Set Warnings "-register-all".

(* ------------------------------------------------------------------ *)
(** ** Values and objects *)

Inductive value : Type :=
| VNull
| VBool (b : bool)
| VNum (n : Z)
| VStr (s : string)
| VArr (ref : option positive) (xs : list value)
| VObj (ref : option positive) (fs : list (string * value)).

(** [Record<string, any>]: own properties in order. *)
Definition obj := list (string * value).

(** [o[k]]; [None] is [undefined]. *)
Fixpoint oget {A} (k : string) (o : list (string * A)) : option A :=
  match o with
  | [] => None
  | (k', v) :: o' => if String.eqb k k' then Some v else oget k o'
  end.

(** [k in o] *)
Definition ohas {A} (k : string) (o : list (string * A)) : bool :=
  match oget k o with Some _ => true | None => false end.

(** [o[k] = v] (also [Map.prototype.set]). *)
Fixpoint oset {A} (k : string) (v : A) (o : list (string * A)) : list (string * A) :=
  match o with
  | [] => [(k, v)]
  | (k', v') :: o' => if String.eqb k k' then (k, v) :: o' else (k', v') :: oset k v o'
  end.

(** [delete o[k]] *)
Fixpoint odelete {A} (k : string) (o : list (string * A)) : list (string * A) :=
  match o with
  | [] => []
  | (k', v') :: o' => if String.eqb k k' then odelete k o' else (k', v') :: odelete k o'
  end.

(** [JSON.stringify(a) === JSON.stringify(b)]: structure and property order,
    not identity. *)
Fixpoint json_eqb (a b : value) : bool :=
  match a, b with
  | VNull, VNull => true
  | VBool x, VBool y => Bool.eqb x y
  | VNum x, VNum y => Z.eqb x y
  | VStr x, VStr y => String.eqb x y
  | VArr _ xs, VArr _ ys =>
      (fix go (xs ys : list value) : bool :=
         match xs, ys with
         | [], [] => true
         | x :: xs', y :: ys' => json_eqb x y && go xs' ys'
         | _, _ => false
         end) xs ys
  | VObj _ fs, VObj _ gs =>
      (fix go (fs gs : list (string * value)) : bool :=
         match fs, gs with
         | [], [] => true
         | (k, x) :: fs', (l, y) :: gs' => String.eqb k l && json_eqb x y && go fs' gs'
         | _, _ => false
         end) fs gs
  | _, _ => false
  end.

(** [uniqBy(arr, (node) => JSON.stringify(node))]: keep the first of each
    serialisation. *)
Fixpoint uniq_go (seen : list value) (xs : list value) : list value :=
  match xs with
  | [] => []
  | x :: xs' =>
      if existsb (json_eqb x) seen then uniq_go seen xs'
      else x :: uniq_go (x :: seen) xs'
  end.

Definition uniqBy (xs : list value) : list value := uniq_go [] xs.

(** [a === b] *)
Definition strict_eq (a b : value) : bool :=
  match a, b with
  | VNull, VNull => true
  | VBool x, VBool y => Bool.eqb x y
  | VNum x, VNum y => Z.eqb x y
  | VStr x, VStr y => String.eqb x y
  | VArr (Some r) _, VArr (Some r') _ => Pos.eqb r r'
  | VObj (Some r) _, VObj (Some r') _ => Pos.eqb r r'
  | _, _ => false
  end.

(** [===] on possibly-[undefined] reads. *)
Definition strict_eq_opt (a b : option value) : bool :=
  match a, b with
  | None, None => true
  | Some x, Some y => strict_eq x y
  | _, _ => false
  end.

(** JS truthiness of a read. *)
Definition truthy (v : option value) : bool :=
  match v with
  | None | Some VNull => false
  | Some (VBool b) => b
  | Some (VNum n) => negb (Z.eqb n 0)
  | Some (VStr s) => negb (String.eqb s "")
  | Some _ => true
  end.

(* ------------------------------------------------------------------ *)
(** ** Strings: [trim], [split], [Number], [localeCompare] *)

Definition is_ws (c : ascii) : bool :=
  existsb (Nat.eqb (nat_of_ascii c)) [9; 10; 11; 12; 13; 32]%nat.

Fixpoint drop_ws (l : list ascii) : list ascii :=
  match l with
  | [] => []
  | c :: l' => if is_ws c then drop_ws l' else l
  end.

(** [s.trim()] *)
Definition trim (s : string) : string :=
  string_of_list_ascii (rev (drop_ws (rev (drop_ws (list_ascii_of_string s))))).

Fixpoint split_go (d : string) (fuel : nat) (s cur : string) : list string :=
  match fuel with
  | O => [String.append cur s]
  | S f =>
      match s with
      | EmptyString => [cur]
      | String c s' =>
          if String.prefix d s
          then cur :: split_go d f (String.substring (String.length d)
                                      (String.length s - String.length d) s) EmptyString
          else split_go d f s' (String.append cur (String c EmptyString))
      end
  end.

(** [s.split(d)]: the empty separator splits into characters. *)
Definition js_split (s d : string) : list string :=
  match d with
  | EmptyString => map (fun c => String c EmptyString) (list_ascii_of_string s)
  | _ => split_go d (S (String.length s)) s EmptyString
  end.

Local Open Scope Z_scope.

Definition digit_val (c : ascii) : option Z :=
  let n := nat_of_ascii c in
  if (48 <=? n)%nat && (n <=? 57)%nat then Some (Z.of_nat (n - 48)) else None.

(** A Number other than NaN: the finite double [m * 2^e], or an infinity. *)
Inductive jsnum : Type :=
| JFin (m e : Z)
| JInf (pos : bool).

Definition jsnum_neg (x : jsnum) : jsnum :=
  match x with JFin m e => JFin (- m) e | JInf p => JInf (negb p) end.

(** The double nearest to the rational [n / d] ([n >= 0], [d > 0]), ties to
    even, with subnormals and overflow to [Infinity]. *)
Definition round_double (n d : Z) : jsnum :=
  if Z.eqb n 0 then JFin 0 0 else
  let k := Z.log2 n - Z.log2 d in
  let above := if Z.leb 0 k then Z.leb (d * 2 ^ k) n else Z.leb d (n * 2 ^ (- k)) in
  let fl := if above then k else k - 1 in
  let e := Z.max (fl - 52) (-1074) in
  let num := if Z.leb 0 e then n else n * 2 ^ (- e) in
  let den := if Z.leb 0 e then d * 2 ^ e else d in
  let q := num / den in
  let r := num mod den in
  let m := match Z.compare (2 * r) den with
           | Lt => q | Gt => q + 1 | Eq => if Z.even q then q else q + 1 end in
  if Z.leb 1024 (Z.log2 m + e) then JInf true else JFin m e.

(** The longest run of digits of base [base] at the head of [l]: its value
    (accumulated onto [acc]), its length and the rest. *)
Fixpoint take_digits (base : Z) (digit : ascii -> option Z) (acc : Z) (n : nat) (l : list ascii)
  : Z * nat * list ascii :=
  match l with
  | c :: l' =>
      match digit c with
      | Some v => take_digits base digit (acc * base + v) (S n) l'
      | None => (acc, n, l)
      end
  | [] => (acc, n, [])
  end.

Definition digit_below (base : Z) (c : ascii) : option Z :=
  let n := Z.of_nat (nat_of_ascii c) in
  let v := if (48 <=? n) && (n <=? 57) then n - 48
           else if (97 <=? n) && (n <=? 122) then n - 87
           else if (65 <=? n) && (n <=? 90) then n - 55 else base in
  if v <? base then Some v else None.

Definition char_is (c : ascii) (n : nat) : bool := Nat.eqb (nat_of_ascii c) n.

(** [D * 10^E] rounded; [ndigits] bounds the number of digits of [D]. The
    two shortcuts give what the rounding gives: [10^309] is past the largest
    double, [10^-400] rounds to zero. *)
Definition decimal_value (D E : Z) (ndigits : nat) : jsnum :=
  if Z.eqb D 0 then JFin 0 0
  else if Z.leb 309 E then JInf true
  else if Z.ltb E (- 400 - Z.of_nat ndigits) then JFin 0 0
  else if Z.leb 0 E then round_double (D * 10 ^ E) 1
  else round_double D (10 ^ (- E)).

(** [ExponentPart] after its [e]/[E]. *)
Definition parse_exponent (l : list ascii) : option Z :=
  let '(sgn, l1) := match l with
                    | c :: l' => if char_is c 43 then (1, l') else if char_is c 45 then (-1, l') else (1, l)
                    | [] => (1, l)
                    end in
  let '(v, n, rest) := take_digits 10 digit_val 0 0 l1 in
  match rest with
  | [] => if (0 <? n)%nat then Some (sgn * v) else None
  | _ => None
  end.

(** [StrUnsignedDecimalLiteral]. *)
Definition parse_unsigned_decimal (l : list ascii) : option jsnum :=
  if String.eqb (string_of_list_ascii l) "Infinity" then Some (JInf true) else
  let '(v1, n1, r1) := take_digits 10 digit_val 0 0 l in
  let '(D, nfrac, n, r2) :=
    match r1 with
    | c :: r => if char_is c 46 then
                  let '(v2, n2, r') := take_digits 10 digit_val v1 0 r in (v2, n2, (n1 + n2)%nat, r')
                else (v1, 0%nat, n1, r1)
    | [] => (v1, 0%nat, n1, r1)
    end in
  if (n =? 0)%nat then None else
  let ex := match r2 with
            | [] => Some 0
            | c :: r => if char_is c 101 || char_is c 69 then parse_exponent r else None
            end in
  match ex with
  | Some x => Some (decimal_value D (x - Z.of_nat nfrac) n)
  | None => None
  end.

(** [StrDecimalLiteral]: an optional sign. *)
Definition parse_decimal (l : list ascii) : option jsnum :=
  match l with
  | c :: r => if char_is c 43 then parse_unsigned_decimal r
              else if char_is c 45 then option_map jsnum_neg (parse_unsigned_decimal r)
              else parse_unsigned_decimal l
  | [] => None
  end.

(** [NonDecimalIntegerLiteral]: [0x], [0o], [0b] in either case, no sign. *)
Definition parse_radix (l : list ascii) : option jsnum :=
  match l with
  | z :: c :: r =>
      let base := if char_is c 120 || char_is c 88 then 16
                  else if char_is c 111 || char_is c 79 then 8
                  else if char_is c 98 || char_is c 66 then 2 else 0 in
      if char_is z 48 && negb (Z.eqb base 0) then
        let '(v, n, rest) := take_digits base (digit_below base) 0 0 r in
        match rest with
        | [] => if (0 <? n)%nat then Some (round_double v 1) else None
        | _ => None
        end
      else None
  | _ => None
  end.

(** [Number(s)] on a string ([StringToNumber]), [None] standing for NaN:
    surrounding white space is ignored, the empty string is [0]. *)
Definition Number (s : string) : option jsnum :=
  let l := rev (drop_ws (rev (drop_ws (list_ascii_of_string s)))) in
  match l with
  | [] => Some (JFin 0 0)
  | _ => match parse_radix l with
         | Some x => Some x
         | None => parse_decimal l
         end
  end.

(** The sign of [na - nb] for two Numbers that are not NaN; the difference of
    two equal infinities is NaN, which the sort reads as [+0]. *)
Definition jsnum_compare (a b : jsnum) : comparison :=
  match a, b with
  | JFin m1 e1, JFin m2 e2 =>
      let e := Z.min e1 e2 in Z.compare (m1 * 2 ^ (e1 - e)) (m2 * 2 ^ (e2 - e))
  | JInf p1, JInf p2 => if Bool.eqb p1 p2 then Eq else if p1 then Gt else Lt
  | JInf p, JFin _ _ => if p then Gt else Lt
  | JFin _ _, JInf p => if p then Lt else Gt
  end.

Fixpoint list_compare (xs ys : list Z) : comparison :=
  match xs, ys with
  | [], [] => Eq
  | [], _ :: _ => Lt
  | _ :: _, [] => Gt
  | x :: xs', y :: ys' => match Z.compare x y with Eq => list_compare xs' ys' | c => c end
  end.

(** The ASCII punctuation and symbols in the order of the root collation:
    underscore, hyphen, comma, semicolon, colon, [!], [?], period, apostrophe,
    quotation mark, [( ) [ ] { } @ * / \ & # %], grave accent, [^ + < = > | ~ $]. *)
Definition collation_symbols : list nat :=
  [95; 45; 44; 59; 58; 33; 63; 46; 39; 34; 40; 41; 91; 93; 123; 125; 64; 42; 47; 92;
   38; 35; 37; 96; 94; 43; 60; 61; 62; 124; 126; 36]%nat.

Fixpoint index_of (n : nat) (l : list nat) : option nat :=
  match l with
  | [] => None
  | x :: l' => if Nat.eqb x n then Some 0%nat else option_map S (index_of n l')
  end.

(** The primary weight of a character in the root collation: white space,
    then punctuation and symbols, then digits, then letters without case;
    [None] for the ignorable control characters. Bytes beyond ASCII, outside
    the strings modelled, come last. *)
Definition primary_weight (c : ascii) : option Z :=
  let n := nat_of_ascii c in
  match index_of n [9; 10; 11; 12; 13; 32]%nat with
  | Some i => Some (Z.of_nat i)
  | None =>
  match index_of n collation_symbols with
  | Some i => Some (10 + Z.of_nat i)
  | None =>
  if (48 <=? n)%nat && (n <=? 57)%nat then Some (100 + Z.of_nat n)
  else if (97 <=? n)%nat && (n <=? 122)%nat then Some (200 + Z.of_nat n)
  else if (65 <=? n)%nat && (n <=? 90)%nat then Some (232 + Z.of_nat n)
  else if (128 <=? n)%nat then Some (400 + Z.of_nat n)
  else None
  end end.

(** The tertiary weight: an upper-case letter after its lower case. *)
Definition tertiary_weight (c : ascii) : Z :=
  let n := nat_of_ascii c in if (65 <=? n)%nat && (n <=? 90)%nat then 1 else 0.

Definition primary_key (s : string) : list Z :=
  omap primary_weight (list_ascii_of_string s).

Definition tertiary_key (s : string) : list Z :=
  map tertiary_weight (List.filter (fun c => if primary_weight c then true else false) (list_ascii_of_string s)).

(** [a.localeCompare(b)] *)
Definition localeCompare (a b : string) : comparison :=
  match list_compare (primary_key a) (primary_key b) with
  | Eq => list_compare (tertiary_key a) (tertiary_key b)
  | c => c
  end.

Local Close Scope Z_scope.

(* ------------------------------------------------------------------ *)
(** ** Transforms (transforms.ts) *)

Record ColumnSplit := { split_tableId : string; split_column : string; split_delimiter : string }.
Record PivotGroup := { pattern : string; group_propertyName : string }.
Record TablePivot := { pivot_tableId : string; arrayName : string; groups : list PivotGroup }.

(** [matchGroupColumns]: index (suffix) to column name, as a [Map]. *)
Definition matchGroupColumns (allColumns : list string) (pat : string) : list (string * string) :=
  fold_left (fun result col =>
    if String.prefix pat col then
      let suffix := String.substring (String.length pat)
                      (String.length col - String.length pat) col in
      if (0 <? String.length suffix)%nat then oset suffix col result else result
    else result) allColumns [].

(** One iteration of the loop of [applySplits]. *)
Definition applySplit (tableId : string) (out : obj) (split : ColumnSplit) : obj :=
  if negb (String.eqb (split_tableId split) tableId) then out
  else match oget (split_column split) out with
       | Some (VStr v) =>
           oset (split_column split)
             (VArr None (map (fun s => VStr (trim s)) (js_split v (split_delimiter split)))) out
       | _ => out
       end.

(** [applySplits]; [out] starts as the copy [{ ...row }]. *)
Definition applySplits (row : obj) (splits : list ColumnSplit) (tableId : string) : obj :=
  fold_left (applySplit tableId) splits row.

(** The comparator of step 3. *)
Definition compareIndices (a b : string) : comparison :=
  match Number a, Number b with
  | Some na, Some nb => jsnum_compare na nb
  | _, _ => localeCompare a b
  end.

Fixpoint insert_by (cmp : string -> string -> comparison) (x : string) (l : list string)
  : list string :=
  match l with
  | [] => [x]
  | y :: l' => match cmp y x with Gt => x :: y :: l' | _ => y :: insert_by cmp x l' end
  end.

(** [[...xs].sort(cmp)] *)
Definition sort_by (cmp : string -> string -> comparison) (xs : list string) : list string :=
  fold_left (fun acc x => insert_by cmp x acc) xs [].

(** [new Set<string>()] filled with [add]: insertion order, no repeats. *)
Definition set_add (x : string) (s : list string) : list string :=
  if existsb (String.eqb x) s then s else s ++ [x].

(** Steps 2 and 3, shared with the pivot-aware join. *)
Definition collectIndices (maps : list (list (string * string))) : list string :=
  fold_left (fun acc cols => fold_left (fun acc idx => set_add idx acc) (map fst cols) acc) maps [].

Definition sortedIndices (maps : list (list (string * string))) : list string :=
  sort_by compareIndices (collectIndices maps).

(** The object of one index (step 4). *)
Definition pivotObject (out : obj) (groupMaps : list (PivotGroup * list (string * string)))
  (idx : string) : obj * bool :=
  fold_left (fun '(o, hasValue) '(g, cols) =>
    match oget idx cols with
    | Some colName =>
        if String.eqb colName "" then (o, hasValue)
        else match oget colName out with
             | Some v => (oset (group_propertyName g) v o, true)
             | None => (o, hasValue)
             end
    | None => (o, hasValue)
    end) groupMaps ([], false).

(** One pivot of [applyPivots]. *)
Definition applyPivot (allColumns : list string) (out : obj) (pivot : TablePivot) : obj :=
  let groupMaps := map (fun g => (g, matchGroupColumns allColumns (pattern g))) (groups pivot) in
  let idxs := sortedIndices (map snd groupMaps) in
  let arr := fold_left (fun arr idx =>
               let '(o, hasValue) := pivotObject out groupMaps idx in
               if hasValue then arr ++ [o] else arr) idxs [] in
  let out := fold_left (fun out '(_, cols) =>
               fold_left (fun out colName => odelete colName out) (map snd cols) out)
               groupMaps out in
  oset (arrayName pivot) (VArr None (map (VObj None) arr)) out.

(** [applyPivots]; [out] starts as the copy [{ ...row }]. *)
Definition applyPivots (row : obj) (pivots : list TablePivot) (tableId : string)
  (allColumns : list string) : obj :=
  fold_left (fun out pivot =>
    if negb (String.eqb (pivot_tableId pivot) tableId) then out
    else applyPivot allColumns out pivot) pivots row.

Definition applyTransforms (row : obj) (tableId : string) (allColumns : list string)
  (splits : list ColumnSplit) (pivots : list TablePivot) : obj :=
  applyPivots (applySplits row splits tableId) pivots tableId allColumns.

(* ------------------------------------------------------------------ *)
(** ** Tables, relationships, and the effects of [buildJoinedDocument] *)

Record TableData := { table_id : string; name : string; columns : list string; rows : list obj }.

Inductive cardinality := OneToMany | OneToOne.

Record RelationshipEdge := {
  sourceTableId : string;
  targetTableId : string;
  sourceColumn : string;
  targetColumn : string;
  type : option cardinality;
  includedColumns : option (list string);
  maxDepth : option Z;
  propertyName : option string }.

(** The [options] argument. *)
Record BuildOptions := {
  opt_columnsFilter : option (list (string * list string));
  opt_columnSplits : option (list ColumnSplit);
  opt_tablePivots : option (list TablePivot) }.

(** The [visited] key [`${tableId}:${idx}:${depth}`]; rows are distinct
    objects, so [table.rows.indexOf(row)] is the row's position. *)
Definition key : Type := (string * nat * nat)%type.

Inductive js_error :=
| LeadTableNotFound (leadTableId : string)     (** [`Lead table not found: ...`] *)
| LeadRowNotFound (leadRowIndex : Z)           (** [`Lead row not found index=...`] *)
| TypeErrorUndefined                           (** a property read or write on [undefined] *)
| TypeErrorPrimitive.                          (** a property write on a primitive (strict mode) *)

(** One step of the computation, threading the [visited] set.
    [InputWrite]: a property write into an object owned by the caller;
    [OutsideModel]: a named property written on an array, which JSON output
    would not show; [OutOfFuel]: the bound on nesting was exhausted.  The last
    three are not JS behaviours: the theorems below show they do not occur. *)
Inductive outcome (A : Type) : Type :=
| Done (a : A) (visited : gset key)
| Throw (e : js_error)
| InputWrite
| OutsideModel
| OutOfFuel.
Arguments Done {A} a visited.
Arguments Throw {A} e.
Arguments InputWrite {A}.
Arguments OutsideModel {A}.
Arguments OutOfFuel {A}.

Definition M (A : Type) : Type := gset key -> outcome A.

Definition ret {A} (a : A) : M A := fun s => Done a s.

Definition bind {A B} (m : M A) (k : A -> M B) : M B := fun s =>
  match m s with
  | Done a s' => k a s'
  | Throw e => Throw e
  | InputWrite => InputWrite
  | OutsideModel => OutsideModel
  | OutOfFuel => OutOfFuel
  end.

Notation "x <- m ;; k" := (bind m (fun x => k)) (at level 100, m at next level, right associativity).

(** [xs.map(f)] with an effectful [f]. *)
Fixpoint mmap {A B} (f : A -> M B) (xs : list A) : M (list B) :=
  match xs with
  | [] => ret []
  | x :: xs' => y <- f x ;; ys <- mmap f xs' ;; ret (y :: ys)
  end.

(** A [for ... of] loop updating a local. *)
Fixpoint mfold {A B} (f : A -> B -> M A) (a : A) (xs : list B) : M A :=
  match xs with
  | [] => ret a
  | x :: xs' => a' <- f a x ;; mfold f a' xs'
  end.

Fixpoint enumerate_from {A} (n : nat) (l : list A) : list (nat * A) :=
  match l with
  | [] => []
  | x :: l' => (n, x) :: enumerate_from (S n) l'
  end.

Fixpoint first_some {A B} (f : A -> option B) (l : list A) : option B :=
  match l with
  | [] => None
  | x :: l' => match f x with Some b => Some b | None => first_some f l' end
  end.

(** [pivotArray[i][propName] = v]: elements are modified in place. *)
Definition setElementProp (arr : list value) (i : nat) (propName : string) (v : value)
  : M (list value) :=
  match nth_error arr i with
  | Some (VObj None fs) => ret (<[i := VObj None (oset propName v fs)]> arr)
  | Some (VObj (Some _) _) => fun _ => InputWrite
  | Some (VArr _ _) => fun _ => OutsideModel
  | Some _ => fun _ => Throw TypeErrorPrimitive
  | None => fun _ => Throw TypeErrorUndefined
  end.

(* ------------------------------------------------------------------ *)
(** ** [buildJoinedDocument] (join.ts) *)

Section Build.

Variable tables : list TableData.
Variable relationships : list RelationshipEdge.
Variable columnsFilter : option (list (string * list string)).
Variable columnSplits : list ColumnSplit.
Variable tablePivots : list TablePivot.

(** [tableMap.get(id)] for [new Map(tables.map((t) => [t.id, t]))]. *)
Definition tableMap_get (tid : string) : option TableData :=
  find (fun t => String.eqb (table_id t) tid) (rev tables).

Definition projectRow (tableId : string) (row : obj) : obj :=
  let cols := match columnsFilter with Some cf => oget tableId cf | None => None end in
  let out := match cols with
             | None | Some [] => row
             | Some cs => fold_left (fun acc k =>
                            match oget k row with Some v => oset k v acc | None => acc end) cs []
             end in
  let allColumns := match tableMap_get tableId with
                    | Some t => columns t
                    | None => map fst row
                    end in
  applyTransforms out tableId allColumns columnSplits tablePivots.

Definition findPivotInfo (tblId col : string) : option (TablePivot * list (string * string)) :=
  match tableMap_get tblId with
  | None => None
  | Some tbl =>
      first_some (fun pivot =>
        if negb (String.eqb (pivot_tableId pivot) tblId) then None
        else first_some (fun g =>
               let matched := matchGroupColumns (columns tbl) (pattern g) in
               if existsb (fun p => String.eqb (snd p) col) matched
               then Some (pivot, matched) else None) (groups pivot)) tablePivots
  end.

(** [childTableNames] of the edge into [childTableId]. *)
Definition childTableNames (childTableId : string) : list string :=
  flat_map (fun r =>
    if String.eqb (sourceTableId r) childTableId || String.eqb (targetTableId r) childTableId then
      let tid := if String.eqb (sourceTableId r) childTableId then targetTableId r else sourceTableId r in
      match tableMap_get tid with
      | Some t => if String.eqb (name t) "" then [] else [name t]
      | None => []
      end
    else []) relationships.

Definition filterNestedCols (rel : RelationshipEdge) (childTableId : string) (o : obj) : obj :=
  match includedColumns rel with
  | None | Some [] => o
  | Some inc =>
      fold_left (fun filtered '(k, v) =>
        if existsb (String.eqb k) inc || existsb (String.eqb k) (childTableNames childTableId)
        then oset k v filtered else filtered) o []
  end.

(** [childTable.rows.filter((r) => r[remoteCol] === localValue)], with positions. *)
Definition matchRows (childTable : TableData) (remoteCol : string) (localValue : option value)
  : list (nat * obj) :=
  List.filter (fun p => strict_eq_opt (oget remoteCol (snd p)) localValue)
    (enumerate_from 0 (rows childTable)).

(** The recursive call [buildNested(tableId, row, parentId, depth)], where the
    row is the [idx]-th of its table. *)
Definition builder : Type := string -> nat -> obj -> option string -> nat -> M obj.

Definition is_recursive (tableId : string) (parentId : option string) (childTableId : string) : bool :=
  match parentId with Some p => String.eqb childTableId p | None => false end
  || String.eqb childTableId tableId.

(** [if (isRecursive) { ... continue } else if (childTableId === parentId) continue]:
    the edge is skipped. *)
Definition edge_blocked (rel : RelationshipEdge) (tableId : string) (parentId : option string)
  (depth : nat) (childTableId : string) : bool :=
  if is_recursive tableId parentId childTableId then
    match maxDepth rel with
    | None => true
    | Some m => Z.eqb m 0 || (Z.of_nat depth >=? m)%Z
    end
  else match parentId with Some p => String.eqb childTableId p | None => false end.

Definition childTableIdOf (rel : RelationshipEdge) (tableId : string) : string :=
  if String.eqb (sourceTableId rel) tableId then targetTableId rel else sourceTableId rel.

Definition localColOf (rel : RelationshipEdge) (tableId : string) : string :=
  if String.eqb (sourceTableId rel) tableId then sourceColumn rel else targetColumn rel.

Definition remoteColOf (rel : RelationshipEdge) (tableId : string) : string :=
  if String.eqb (sourceTableId rel) tableId then targetColumn rel else sourceColumn rel.

(** [filterNestedCols(buildNested(childTableId, m, tableId, isRecursive ? depth + 1 : 0, rel))] *)
Definition buildChild (build : builder) (rel : RelationshipEdge) (childTableId tableId : string)
  (childDepth : nat) (m : nat * obj) : M value :=
  o <- build childTableId (fst m) (snd m) (Some tableId) childDepth ;;
  ret (VObj None (filterNestedCols rel childTableId o)).

(** The value attached for a non-empty deduplicated [nested]. *)
Definition attachValue (rel : RelationshipEdge) (nested : list value) : value :=
  match type rel with
  | Some OneToOne => hd VNull nested       (* nested[0]; [nested] is non-empty here *)
  | _ => VArr None nested
  end.

(** One iteration [i] of the pivot-aware loop. *)
Definition pivotElemStep (build : builder) (rel : RelationshipEdge) (tableId : string)
  (row : obj) (childDepth : nat) (childTable : TableData)
  (siblingCols : list (string * string)) (pivotArray : list value) (it : nat * string)
  : M (list value) :=
  let childTableId := childTableIdOf rel tableId in
  let remoteCol := remoteColOf rel tableId in
  match oget (snd it) siblingCols with
  | None => ret pivotArray
  | Some colName =>
      if String.eqb colName "" || negb (ohas colName row) then ret pivotArray
      else
        match matchRows childTable remoteCol (oget colName row) with
        | [] => ret pivotArray
        | matches =>
            nestedRaw <- mmap (buildChild build rel childTableId tableId childDepth) matches ;;
            let propName := match propertyName rel with Some p => p | None => name childTable end in
            setElementProp pivotArray (fst it) propName (attachValue rel (uniqBy nestedRaw))
        end
  end.

Definition pivotJoin (build : builder) (rel : RelationshipEdge) (tableId : string) (row : obj)
  (childDepth : nat) (childTable : TableData) (pivot : TablePivot)
  (siblingCols : list (string * string)) (projected : obj) : M obj :=
  match oget (arrayName pivot) projected with
  | Some (VArr r pivotArray) =>
      match tableMap_get tableId with
      | None => fun _ => Throw TypeErrorUndefined          (* tableMap.get(tableId)!.columns *)
      | Some tbl =>
          let allGroupMaps := map (fun g => matchGroupColumns (columns tbl) (pattern g)) (groups pivot) in
          let idxs := sortedIndices allGroupMaps in
          arr' <- mfold (pivotElemStep build rel tableId row childDepth childTable siblingCols)
                    pivotArray (enumerate_from 0 (firstn (length pivotArray) idxs)) ;;
          ret (oset (arrayName pivot) (VArr r arr') projected)
      end
  | _ => ret projected
  end.

Definition plainJoin (build : builder) (rel : RelationshipEdge) (tableId : string) (row : obj)
  (childDepth : nat) (childTable : TableData) (projected : obj) : M obj :=
  let childTableId := childTableIdOf rel tableId in
  match matchRows childTable (remoteColOf rel tableId) (oget (localColOf rel tableId) row) with
  | [] => ret projected
  | childMatches =>
      nestedRaw <- mmap (buildChild build rel childTableId tableId childDepth) childMatches ;;
      let nested := uniqBy nestedRaw in
      let propName := match propertyName rel with Some p => p | None => name childTable end in
      let existing := oget propName projected in
      match type rel with
      | Some OneToOne => ret (oset propName (hd VNull nested) projected)
      | _ =>
          if truthy existing then
            let arr := match existing with
                       | Some (VArr _ xs) => xs
                       | Some e => [e]
                       | None => []
                       end in
            ret (oset propName (VArr None (uniqBy (arr ++ nested))) projected)
          else ret (oset propName (VArr None nested) projected)
      end
  end.

(** The body of [for (const rel of rels)]. *)
Definition relStep (build : builder) (tableId : string) (row : obj) (parentId : option string)
  (depth : nat) (projected : obj) (rel : RelationshipEdge) : M obj :=
  let childTableId := childTableIdOf rel tableId in
  if edge_blocked rel tableId parentId depth childTableId then ret projected
  else
    match tableMap_get childTableId with
    | None => ret projected
    | Some childTable =>
        let childDepth := if is_recursive tableId parentId childTableId then S depth else 0 in
        match findPivotInfo tableId (localColOf rel tableId) with
        | Some (pivot, siblingCols) =>
            pivotJoin build rel tableId row childDepth childTable pivot siblingCols projected
        | None => plainJoin build rel tableId row childDepth childTable projected
        end
    end.

Definition relsOf (tableId : string) : list RelationshipEdge :=
  List.filter (fun r => String.eqb (sourceTableId r) tableId || String.eqb (targetTableId r) tableId)
    relationships.

Fixpoint buildNested (fuel : nat) (tableId : string) (idx : nat) (row : obj)
  (parentId : option string) (depth : nat) : M obj :=
  match fuel with
  | O => fun _ => OutOfFuel
  | S fuel' => fun visited =>
      if decide ((tableId, idx, depth) ∈ visited) then Done (projectRow tableId row) visited
      else
        mfold (relStep (buildNested fuel') tableId row parentId depth)
          (projectRow tableId row) (relsOf tableId) ({[(tableId, idx, depth)]} ∪ visited)
  end.

(** A bound on [depth]: it is reset to 0 or raised below some [maxDepth]. *)
Definition maxDepthBound : nat :=
  fold_right (fun r acc => Nat.max (match maxDepth r with Some m => Z.to_nat m | None => 0 end) acc)
    0%nat relationships.

(** Every key [buildNested] can mark. *)
Definition keyUniverse : gset key :=
  list_to_set (flat_map (fun t =>
    flat_map (fun j => map (fun d => (table_id t, j, d)) (seq 0 (S maxDepthBound)))
      (seq 0 (length (rows t)))) tables).

(** Nesting is at most one level per key of [keyUniverse]. *)
Definition fuel : nat := S (size keyUniverse).

End Build.

Inductive result :=
| JOk (doc : obj)
| JThrow (e : js_error)
| JInputWrite
| JOutsideModel
| JOutOfFuel.

Definition buildJoinedDocument (leadTableId : string) (leadRowIndex : Z) (tables : list TableData)
  (relationships : list RelationshipEdge) (options : option BuildOptions) : result :=
  match tableMap_get tables leadTableId with
  | None => JThrow (LeadTableNotFound leadTableId)
  | Some leadTable =>
      match (if (0 <=? leadRowIndex)%Z then nth_error (rows leadTable) (Z.to_nat leadRowIndex)
             else None) with
      | None => JThrow (LeadRowNotFound leadRowIndex)
      | Some leadRow =>
          let columnsFilter := match options with Some o => opt_columnsFilter o | None => None end in
          let columnSplits := match options with
                              | Some o => match opt_columnSplits o with Some l => l | None => [] end
                              | None => [] end in
          let tablePivots := match options with
                             | Some o => match opt_tablePivots o with Some l => l | None => [] end
                             | None => [] end in
          match buildNested tables relationships columnsFilter columnSplits tablePivots
                  (fuel tables relationships) leadTableId (Z.to_nat leadRowIndex) leadRow None 0 ∅ with
          | Done o _ => JOk [(name leadTable, VObj None o)]
          | Throw e => JThrow e
          | InputWrite => JInputWrite
          | OutsideModel => JOutsideModel
          | OutOfFuel => JOutOfFuel
          end
      end
  end.

(* ------------------------------------------------------------------ *)
(** ** [toRelationshipEdges] (join.ts) *)

(** The fields of a reactflow [Edge] that [toRelationshipEdges] reads; a
    [null] or absent handle is [None], and [edge_data_type] is
    [(e.data as any)?.type]. *)
Record Edge := {
  edge_id : string;
  source : string;
  target : string;
  sourceHandle : option string;
  targetHandle : option string;
  edge_data_type : option cardinality }.

(** [rec?.[k]] on an optional [Record<string, A>]. *)
Definition rec_get {A} (r : option (list (string * A))) (k : string) : option A :=
  match r with Some o => oget k o | None => None end.

(** The [.map] step. *)
Definition edgeToRelationship (edgeTypes : option (list (string * cardinality)))
  (edgeColumnFilters : option (list (string * list string)))
  (edgeMaxDepth : option (list (string * Z)))
  (edgePropertyNames : option (list (string * string))) (e : Edge) : RelationshipEdge :=
  {| sourceTableId := source e;
     targetTableId := target e;
     sourceColumn := match sourceHandle e with Some h => h | None => "" end;
     targetColumn := match targetHandle e with Some h => h | None => "" end;
     type := match rec_get edgeTypes (edge_id e) with Some t => Some t | None => edge_data_type e end;
     includedColumns := rec_get edgeColumnFilters (edge_id e);
     maxDepth := rec_get edgeMaxDepth (edge_id e);
     propertyName := rec_get edgePropertyNames (edge_id e) |}.

(** [.filter((e) => e.sourceColumn && e.targetColumn)]: a string is truthy
    when it is not empty. *)
Definition toRelationshipEdges (edges : list Edge)
  (edgeTypes : option (list (string * cardinality)))
  (edgeColumnFilters : option (list (string * list string)))
  (edgeMaxDepth : option (list (string * Z)))
  (edgePropertyNames : option (list (string * string))) : list RelationshipEdge :=
  List.filter (fun r => negb (String.eqb (sourceColumn r) "") && negb (String.eqb (targetColumn r) ""))
    (map (edgeToRelationship edgeTypes edgeColumnFilters edgeMaxDepth edgePropertyNames) edges).

(* ------------------------------------------------------------------ *)
(** ** Concrete inputs *)

Module Scenarios.

Definition edge (s t sc tc : string) : RelationshipEdge :=
  {| sourceTableId := s; targetTableId := t; sourceColumn := sc; targetColumn := tc;
     type := None; includedColumns := None; maxDepth := None; propertyName := None |}.

Definition tableA : TableData :=
  {| table_id := "a"; name := "A"; columns := ["id"; "b_id"];
     rows := [[("id", VNum 1); ("b_id", VNum 10)]; [("id", VNum 2); ("b_id", VNum 11)]] |}.

Definition tableB : TableData :=
  {| table_id := "b"; name := "B"; columns := ["id"; "val"];
     rows := [[("id", VNum 10); ("val", VStr "x")]; [("id", VNum 11); ("val", VStr "y")]] |}.

Definition tableC : TableData :=
  {| table_id := "c"; name := "C"; columns := ["id"; "b_id"];
     rows := [[("id", VNum 100); ("b_id", VNum 10)]] |}.

(** A table whose [Item1]/[Item2] columns are pivoted into [Items], joined on
    [Item1] to a table [C] with rows [k = 1] and [k = 2]. *)
Definition tableT : TableData :=
  {| table_id := "t"; name := "T"; columns := ["Item1"; "Item2"];
     rows := [[("Item1", VNum 1); ("Item2", VNum 2)]] |}.

Definition tableK : TableData :=
  {| table_id := "c"; name := "C"; columns := ["k"];
     rows := [[("k", VNum 1)]; [("k", VNum 2)]] |}.

Definition itemsPivot : TablePivot :=
  {| pivot_tableId := "t"; arrayName := "Items";
     groups := [{| pattern := "Item"; group_propertyName := "Item" |}] |}.

Definition pivotOptions (cf : option (list (string * list string))) : BuildOptions :=
  {| opt_columnsFilter := cf; opt_columnSplits := None; opt_tablePivots := Some [itemsPivot] |}.

(** Boss <- Worker <- Intern. *)
Definition employees : TableData :=
  {| table_id := "e"; name := "Employee"; columns := ["id"; "name"; "manager_id"];
     rows := [[("id", VNum 1); ("name", VStr "Boss"); ("manager_id", VNull)];
              [("id", VNum 2); ("name", VStr "Worker"); ("manager_id", VNum 1)];
              [("id", VNum 3); ("name", VStr "Intern"); ("manager_id", VNum 2)]] |}.

Definition reportsTo (md : option Z) : RelationshipEdge :=
  {| sourceTableId := "e"; targetTableId := "e"; sourceColumn := "id"; targetColumn := "manager_id";
     type := None; includedColumns := None; maxDepth := md; propertyName := None |}.

(** [A -> B] keeping only [val], and [B -> C] embedded under [kids]. *)
Definition edgeAB_val : RelationshipEdge :=
  {| sourceTableId := "a"; targetTableId := "b"; sourceColumn := "b_id"; targetColumn := "id";
     type := None; includedColumns := Some ["val"]; maxDepth := None; propertyName := None |}.

Definition edgeBC_kids : RelationshipEdge :=
  {| sourceTableId := "b"; targetTableId := "c"; sourceColumn := "id"; targetColumn := "b_id";
     type := None; includedColumns := None; maxDepth := None; propertyName := Some "kids" |}.

Definition mixedPivot : TablePivot :=
  {| pivot_tableId := "t"; arrayName := "Items";
     groups := [{| pattern := "Item"; group_propertyName := "Item" |}] |}.

Definition mixedColumns : list string := ["Item10"; "Item2"; "Itema"].

Definition mixedRow : obj := [("Item10", VNum 10); ("Item2", VNum 2); ("Itema", VNum 0)].

(** Columns [Item 1], [Item 10], [Item 2]: indices with a leading space. *)
Definition spacedColumns : list string := ["Item 1"; "Item 10"; "Item 2"].

Definition spacedRow : obj := [("Item 1", VNum 1); ("Item 10", VNum 10); ("Item 2", VNum 2)].

(** Two canvas edges: one with both handles, one with none. *)
Definition edgeE1 : Edge :=
  {| edge_id := "e1"; source := "a"; target := "b"; sourceHandle := Some "b_id";
     targetHandle := Some "id"; edge_data_type := None |}.
Definition edgeE2 : Edge :=
  {| edge_id := "e2"; source := "a"; target := "b"; sourceHandle := None;
     targetHandle := None; edge_data_type := None |}.

End Scenarios.

(* ------------------------------------------------------------------ *)
(** ** Definitions used by the statements *)

Definition split_pieces (v d : string) : value :=
  VArr None (map (fun s => VStr (trim s)) (js_split v d)).

Definition cmp_le (cmp : string -> string -> comparison) (a b : string) : Prop := cmp a b <> Gt.

Definition consistent_on (cmp : string -> string -> comparison) (l : list string) : Prop :=
  forall a b c, In a l -> In b l -> In c l -> cmp a b <> Gt -> cmp b c <> Gt -> cmp a c <> Gt.

Definition fresh_obj (v : value) : Prop := exists fs, v = VObj None fs.

(** What a pivot's [arrayName] may hold in a projected row: nothing, a fresh
    object, or an array of fresh objects. *)
Definition fresh_slot (ov : option value) : Prop :=
  match ov with
  | None => True
  | Some (VObj None _) => True
  | Some (VArr _ xs) => Forall fresh_obj xs
  | Some _ => False
  end.

Definition pivot_slots_fresh (pivots : list TablePivot) (tid : string) (o : obj) : Prop :=
  forall p, In p pivots -> pivot_tableId p = tid -> fresh_slot (oget (arrayName p) o).

(** [m] run from any [visited] inside [U] with enough fuel left ends normally,
    only adding keys of [U], with a result satisfying [Q]. *)
Definition safe {A : Type} (U : gset key) (f : nat) (m : M A) (Q : A -> Prop) : Prop :=
  forall s, s ⊆ U -> (size U + 1 <= size s + f)%nat ->
  exists a s', m s = Done a s' /\ s ⊆ s' /\ s' ⊆ U /\ Q a.

(** The first split of [splits] on column [c] of table [tableId]. *)
Definition first_split_for (tableId c : string) (splits : list ColumnSplit) : option ColumnSplit :=
  find (fun sp => String.eqb (split_tableId sp) tableId && String.eqb (split_column sp) c) splits.

(** Whether [k] is one of the columns a pivot's groups match. *)
Definition pivoted_column (allColumns : list string) (pivot : TablePivot) (k : string) : bool :=
  existsb (fun g => existsb (fun p => String.eqb (snd p) k) (matchGroupColumns allColumns (pattern g)))
    (groups pivot).

(** The three option reads at the start of [buildJoinedDocument]. *)
Definition options_columnsFilter (options : option BuildOptions) : option (list (string * list string)) :=
  match options with Some o => opt_columnsFilter o | None => None end.

Definition options_columnSplits (options : option BuildOptions) : list ColumnSplit :=
  match options with
  | Some o => match opt_columnSplits o with Some l => l | None => [] end
  | None => [] end.

Definition options_tablePivots (options : option BuildOptions) : list TablePivot :=
  match options with
  | Some o => match opt_tablePivots o with Some l => l | None => [] end
  | None => [] end.

(** The child rows one relationship would attach to a row: on the
    pivot-aware path, the rows matching the value of a sibling column the row
    has; on the plain path, the rows matching the value of the local column. *)
Definition relationship_matches (tables : list TableData) (pivots : list TablePivot)
  (rel : RelationshipEdge) (tid : string) (row : obj) (ct : TableData) : list (nat * obj) :=
  match findPivotInfo tables pivots tid (localColOf rel tid) with
  | Some (_, sib) =>
      flat_map (fun p => if ohas (snd p) row then matchRows ct (remoteColOf rel tid) (oget (snd p) row)
                         else []) sib
  | None => matchRows ct (remoteColOf rel tid) (oget (localColOf rel tid) row)
  end.

(** No later entry is [JSON.stringify]-equal to an earlier one. *)
Definition json_distinct (xs : list value) : Prop :=
  ForallOrdPairs (fun a b => json_eqb b a = false) xs.

(** What one pivot element holds: a property per group that found a value at
    its column for the index, and at least one property when it is kept. *)
Definition elem_from (cols : list string) (o : obj) (gs : list PivotGroup) (e : obj) : Prop :=
  forall k v, In (k, v) e -> exists g idx col, In g gs /\ group_propertyName g = k /\
    oget idx (matchGroupColumns cols (pattern g)) = Some col /\ oget col o = Some v.

(* ================================================================== *)
(** * Properties *)

Import Scenarios.

(* ------------------------------------------------------------------ *)
(** ** Generic facts about objects *)

Lemma oget_oset_eq {A} (k : string) (v : A) o : oget k (oset k v o) = Some v.
Proof.
  induction o as [|[k' v'] o IH]; simpl.
  - by rewrite String.eqb_refl.
  - destruct (String.eqb k k') eqn:E; simpl; [by rewrite String.eqb_refl | by rewrite E].
Qed.

Lemma oget_oset_ne {A} (k c : string) (v : A) o : c <> k -> oget k (oset c v o) = oget k o.
Proof.
  intros Hne. induction o as [|[k' v'] o IH]; simpl.
  - destruct (String.eqb k c) eqn:E; [apply String.eqb_eq in E; congruence | done].
  - destruct (String.eqb c k') eqn:E; simpl.
    + apply String.eqb_eq in E; subst k'.
      destruct (String.eqb k c) eqn:E2; [apply String.eqb_eq in E2; congruence | done].
    + by destruct (String.eqb k k').
Qed.

Lemma oget_odelete {A} (k c : string) (o : list (string * A)) :
  oget k (odelete c o) = if String.eqb c k then None else oget k o.
Proof.
  induction o as [|[k' v'] o IH]; simpl.
  - by destruct (String.eqb c k).
  - destruct (String.eqb c k') eqn:E; simpl.
    + apply String.eqb_eq in E; subst k'. rewrite IH.
      destruct (String.eqb c k) eqn:E2; [done|].
      destruct (String.eqb k c) eqn:E3; [|done].
      apply String.eqb_eq in E3; subst; by rewrite String.eqb_refl in E2.
    + destruct (String.eqb k k') eqn:E2; [|done].
      apply String.eqb_eq in E2; subst k'.
      destruct (String.eqb c k) eqn:E3; [congruence|done].
Qed.

Lemma oset_oget_same {A} (k : string) (v : A) o : oget k o = Some v -> oset k v o = o.
Proof.
  induction o as [|[k' v'] o IH]; simpl; [done|].
  destruct (String.eqb k k') eqn:E.
  - apply String.eqb_eq in E; subst k'. by intros [= ->].
  - intros H. by rewrite IH.
Qed.

(* ------------------------------------------------------------------ *)
(** ** Splits *)

Lemma applySplit_other tableId out sp c :
  (split_tableId sp = tableId -> split_column sp <> c) ->
  oget c (applySplit tableId out sp) = oget c out.
Proof.
  intros H. unfold applySplit.
  destruct (String.eqb (split_tableId sp) tableId) eqn:E; simpl; [|done].
  apply String.eqb_eq in E.
  destruct (oget (split_column sp) out) as [[]|]; try done.
  apply oget_oset_ne. auto.
Qed.

Lemma applySplit_nonstring tableId out sp c :
  (forall v, oget c out <> Some (VStr v)) ->
  oget c (applySplit tableId out sp) = oget c out.
Proof.
  intros H. unfold applySplit.
  destruct (String.eqb (split_tableId sp) tableId); simpl; [|done].
  destruct (oget (split_column sp) out) as [[]|] eqn:E; try done.
  destruct (string_dec (split_column sp) c) as [<-|Hne].
  - exfalso. by apply (H s).
  - by apply oget_oset_ne.
Qed.

Lemma applySplits_frame splits tableId out c :
  (forall sp, In sp splits -> split_tableId sp = tableId -> split_column sp <> c) ->
  oget c (fold_left (applySplit tableId) splits out) = oget c out.
Proof.
  revert out. induction splits as [|sp splits IH]; intros out H; simpl; [done|].
  rewrite IH; [|intros; apply H; simpl; auto].
  apply applySplit_other. intros; apply H; simpl; auto.
Qed.

Lemma applySplits_nonstring_fold splits tableId out c :
  (forall v, oget c out <> Some (VStr v)) ->
  oget c (fold_left (applySplit tableId) splits out) = oget c out.
Proof.
  revert out. induction splits as [|sp splits IH]; intros out H; simpl; [done|].
  assert (E : oget c (applySplit tableId out sp) = oget c out) by (by apply applySplit_nonstring).
  rewrite IH; [done|]. by rewrite E.
Qed.

(* ------------------------------------------------------------------ *)
(** ** Sorting pivot indices *)

Lemma list_compare_antisym xs ys : list_compare xs ys = CompOpp (list_compare ys xs).
Proof.
  revert ys. induction xs as [|x xs IH]; intros [|y ys]; simpl; try done.
  rewrite (Z.compare_antisym x y). destruct (Z.compare x y); simpl; [apply IH|done|done].
Qed.

Lemma localeCompare_antisym a b : localeCompare a b = CompOpp (localeCompare b a).
Proof.
  unfold localeCompare. rewrite (list_compare_antisym (primary_key a)).
  destruct (list_compare (primary_key b) (primary_key a)); simpl; auto.
  apply list_compare_antisym.
Qed.

Lemma jsnum_compare_antisym x y : jsnum_compare x y = CompOpp (jsnum_compare y x).
Proof.
  destruct x as [m1 e1|[]], y as [m2 e2|[]]; simpl; try done.
  rewrite Z.min_comm. apply Z.compare_antisym.
Qed.

(** Two finite Numbers compare as their mantissas brought to any common
    exponent below both. *)
Lemma jsnum_compare_fin_at E m1 e1 m2 e2 :
  (E <= e1)%Z -> (E <= e2)%Z ->
  jsnum_compare (JFin m1 e1) (JFin m2 e2) = Z.compare (m1 * 2 ^ (e1 - E)) (m2 * 2 ^ (e2 - E)).
Proof.
  intros H1 H2. simpl. set (e := Z.min e1 e2).
  assert (He : (E <= e)%Z) by (unfold e; lia).
  assert (Hp : (0 < 2 ^ (e - E))%Z) by (apply Z.pow_pos_nonneg; lia).
  replace (e1 - E)%Z with ((e1 - e) + (e - E))%Z by lia.
  replace (e2 - E)%Z with ((e2 - e) + (e - E))%Z by lia.
  rewrite !Z.pow_add_r by (unfold e; lia).
  rewrite !Z.mul_assoc. generalize dependent (2 ^ (e - E))%Z. intros p Hp.
  destruct (Z.compare_spec (m1 * 2 ^ (e1 - e)) (m2 * 2 ^ (e2 - e))) as [H|H|H]; symmetry.
  - rewrite H. apply Z.compare_refl.
  - apply Z.compare_lt_iff. nia.
  - apply Z.compare_gt_iff. nia.
Qed.

Lemma jsnum_compare_trans x y z :
  jsnum_compare x y <> Gt -> jsnum_compare y z <> Gt -> jsnum_compare x z <> Gt.
Proof.
  destruct x as [m1 e1|[]], y as [m2 e2|[]], z as [m3 e3|[]]; try (simpl; congruence).
  set (E := Z.min e1 (Z.min e2 e3)).
  rewrite !(@jsnum_compare_fin_at E) by (unfold E; lia).
  rewrite !Z.compare_le_iff. nia.
Qed.

Lemma compareIndices_antisym a b : compareIndices a b = CompOpp (compareIndices b a).
Proof.
  unfold compareIndices.
  destruct (Number a), (Number b); try apply localeCompare_antisym.
  apply jsnum_compare_antisym.
Qed.

Lemma insert_by_perm cmp x l : Permutation (insert_by cmp x l) (x :: l).
Proof.
  induction l as [|y l IH]; simpl; [done|].
  destruct (cmp y x); try done;
    (etrans; [apply perm_skip, IH|]; apply perm_swap).
Qed.

Lemma sort_by_perm_acc cmp xs acc :
  Permutation (fold_left (fun acc x => insert_by cmp x acc) xs acc) (acc ++ xs).
Proof.
  revert acc. induction xs as [|x xs IH]; intros acc; simpl.
  - by rewrite app_nil_r.
  - etrans; [apply IH|]. etrans; [apply Permutation_app_tail, insert_by_perm|].
    simpl. apply Permutation_middle.
Qed.

Lemma sort_by_perm cmp xs : Permutation (sort_by cmp xs) xs.
Proof. apply (sort_by_perm_acc cmp xs []). Qed.

Section InsertSorted.
Variable cmp : string -> string -> comparison.
Hypothesis cmp_antisym : forall a b, cmp a b = CompOpp (cmp b a).
Variable dom : list string.
Hypothesis cmp_cons : consistent_on cmp dom.

Lemma insert_by_sorted x l :
  In x dom -> (forall y, In y l -> In y dom) ->
  StronglySorted (cmp_le cmp) l -> StronglySorted (cmp_le cmp) (insert_by cmp x l).
Proof.
  intros Hx. induction l as [|y l IH]; intros Hl Hs; simpl.
  - repeat constructor.
  - apply StronglySorted_inv in Hs as [Hs Hy].
    destruct (cmp y x) eqn:E.
    + constructor; [apply IH; auto; intros; apply Hl; simpl; auto|].
      apply List.Forall_forall. intros z Hz.
      apply (Permutation_in _ (insert_by_perm cmp x l)) in Hz as [<-|Hz].
      * unfold cmp_le. by rewrite E.
      * by apply (proj1 (List.Forall_forall _ _) Hy).
    + constructor; [apply IH; auto; intros; apply Hl; simpl; auto|].
      apply List.Forall_forall. intros z Hz.
      apply (Permutation_in _ (insert_by_perm cmp x l)) in Hz as [<-|Hz].
      * unfold cmp_le. by rewrite E.
      * by apply (proj1 (List.Forall_forall _ _) Hy).
    + assert (Hxy : cmp_le cmp x y) by (unfold cmp_le; rewrite cmp_antisym, E; done).
      constructor; [by constructor|].
      constructor; [done|].
      apply List.Forall_forall. intros z Hz.
      apply (@cmp_cons x y z); auto; [apply Hl; simpl; auto|apply Hl; simpl; auto|].
      by apply (proj1 (List.Forall_forall _ _) Hy).
Qed.

Lemma sort_by_sorted_acc xs acc :
  (forall y, In y xs -> In y dom) -> (forall y, In y acc -> In y dom) ->
  StronglySorted (cmp_le cmp) acc ->
  StronglySorted (cmp_le cmp) (fold_left (fun acc x => insert_by cmp x acc) xs acc).
Proof.
  revert acc. induction xs as [|x xs IH]; intros acc Hxs Hacc Hs; simpl; [done|].
  apply IH; [intros; apply Hxs; simpl; auto| |].
  - intros y Hy. apply (Permutation_in _ (insert_by_perm cmp x acc)) in Hy as [<-|Hy].
    + apply Hxs; simpl; auto.
    + auto.
  - apply insert_by_sorted; auto. apply Hxs; simpl; auto.
Qed.

End InsertSorted.

Lemma all_numeric_consistent l :
  (forall a, In a l -> Number a <> None) -> consistent_on compareIndices l.
Proof.
  intros H a b c Ha Hb Hc. unfold compareIndices.
  destruct (Number a) as [na|] eqn:Ea; [|by destruct (H a Ha)].
  destruct (Number b) as [nb|] eqn:Eb; [|by destruct (H b Hb)].
  destruct (Number c) as [nc|] eqn:Ec; [|by destruct (H c Hc)].
  apply jsnum_compare_trans.
Qed.

Unset Implicit Arguments.

(* ------------------------------------------------------------------ *)
(** ** Safety of [buildNested]: no exhausted bound, no exception, no write
    into the caller's objects *)

Lemma safe_ret {A} U f (a : A) (Q : A -> Prop) : Q a -> safe U f (ret a) Q.
Proof. intros HQ s Hs Hf. exists a, s. unfold ret. repeat split; done. Qed.

Lemma safe_bind {A B} U f (m : M A) (k : A -> M B) (P : A -> Prop) (Q : B -> Prop) :
  safe U f m P -> (forall a, P a -> safe U f (k a) Q) -> safe U f (bind m k) Q.
Proof.
  intros Hm Hk s Hs Hf. destruct (Hm s Hs Hf) as (a & s1 & E & H1 & H2 & HP).
  unfold bind. rewrite E.
  destruct (Hk a HP s1 H2) as (b & s2 & E2 & H3 & H4 & HQ).
  { pose proof (subseteq_size _ _ H1). lia. }
  exists b, s2. repeat split; try done. set_solver.
Qed.

Lemma safe_mmap {A B} U f (g : A -> M B) (P : B -> Prop) xs :
  (forall x, In x xs -> safe U f (g x) P) ->
  safe U f (mmap g xs) (fun ys => length ys = length xs /\ Forall P ys).
Proof.
  induction xs as [|x xs IH]; intros H; simpl.
  - apply safe_ret. split; [done|constructor].
  - eapply safe_bind; [apply H; simpl; auto|]. intros y Hy.
    eapply safe_bind; [apply IH; intros; apply H; simpl; auto|]. intros ys [Hl Hys].
    apply safe_ret. split; [simpl; lia|by constructor].
Qed.

Lemma safe_mfold {A B} U f (g : A -> B -> M A) (I : A -> Prop) xs a :
  (forall a x, In x xs -> I a -> safe U f (g a x) I) -> I a -> safe U f (mfold g a xs) I.
Proof.
  revert a. induction xs as [|x xs IH]; intros a H Ha; simpl.
  - by apply safe_ret.
  - eapply safe_bind; [apply H; simpl; auto|]. intros a' Ha'.
    apply IH; auto. intros; apply H; simpl; auto.
Qed.

Lemma Forall_fresh_map (l : list obj) : Forall fresh_obj (map (VObj None) l).
Proof. induction l; simpl; constructor; [eexists; reflexivity|done]. Qed.

Lemma fresh_slot_deletes k cs (o : obj) :
  fresh_slot (oget k o) -> fresh_slot (oget k (fold_left (fun out colName => odelete colName out) cs o)).
Proof.
  revert o. induction cs as [|c cs IH]; intros o H; simpl; [done|].
  apply IH. rewrite oget_odelete. by destruct (String.eqb c k).
Qed.

Lemma applyPivot_other cols o q k :
  arrayName q <> k -> fresh_slot (oget k o) -> fresh_slot (oget k (applyPivot cols o q)).
Proof.
  intros Hne H. unfold applyPivot. cbv zeta. rewrite oget_oset_ne by done.
  generalize (map (fun g => (g, matchGroupColumns cols (pattern g))) (groups q)) as gms.
  intros gms. revert o H. induction gms as [|[g cs] gms IH]; intros o H; simpl; [done|].
  apply IH. by apply fresh_slot_deletes.
Qed.

Lemma applyPivot_self cols o q : fresh_slot (oget (arrayName q) (applyPivot cols o q)).
Proof. unfold applyPivot. cbv zeta. rewrite oget_oset_eq. apply Forall_fresh_map. Qed.

Lemma applyPivots_fresh ps tid cols k (o : obj) :
  fresh_slot (oget k o) \/ (exists p, In p ps /\ pivot_tableId p = tid /\ arrayName p = k) ->
  fresh_slot (oget k (applyPivots o ps tid cols)).
Proof.
  unfold applyPivots. revert o. induction ps as [|q ps IH]; intros o H; simpl.
  - by destruct H as [H|(p & [] & _)].
  - apply IH.
    destruct (String.eqb (pivot_tableId q) tid) eqn:Et; simpl.
    + destruct (string_dec (arrayName q) k) as [<-|Hk].
      * left. apply applyPivot_self.
      * destruct H as [H|(p & [<-|Hp] & Hpt & Hpk)].
        -- left. by apply applyPivot_other.
        -- contradiction.
        -- right. eauto.
    + destruct H as [H|(p & [<-|Hp] & Hpt & Hpk)].
      * by left.
      * apply String.eqb_neq in Et. contradiction.
      * right. eauto.
Qed.

Lemma pivot_slots_fresh_oset pivots tid k v (o : obj) :
  (forall p, In p pivots -> pivot_tableId p = tid -> arrayName p = k -> fresh_slot (Some v)) ->
  pivot_slots_fresh pivots tid o -> pivot_slots_fresh pivots tid (oset k v o).
Proof.
  intros Hv Ho p Hp Ht. destruct (string_dec k (arrayName p)) as [Heq|Hne].
  - rewrite <- Heq, oget_oset_eq. by apply (Hv p Hp Ht).
  - rewrite oget_oset_ne by done. auto.
Qed.

Lemma uniq_go_Forall (P : value -> Prop) seen xs : Forall P xs -> Forall P (uniq_go seen xs).
Proof.
  revert seen. induction xs as [|x xs IH]; intros seen H; simpl; [constructor|].
  inversion H; subst. destruct existsb; [auto|constructor; auto].
Qed.

Lemma uniqBy_cons x xs : exists ys, uniqBy (x :: xs) = x :: ys.
Proof. unfold uniqBy. simpl. eexists; reflexivity. Qed.

Lemma tableMap_get_spec tables tid t :
  tableMap_get tables tid = Some t -> In t tables /\ table_id t = tid.
Proof.
  unfold tableMap_get. intros H. apply find_some in H as [H1 H2].
  split; [by apply in_rev | by apply String.eqb_eq].
Qed.

Lemma maxDepth_le_bound rels rel m :
  In rel rels -> maxDepth rel = Some m -> (Z.to_nat m <= maxDepthBound rels)%nat.
Proof.
  unfold maxDepthBound. induction rels as [|r rs IH]; simpl; [done|].
  intros [<-|H] E; [rewrite E; lia|]. specialize (IH H E). lia.
Qed.

Lemma key_in_U tables rels tid t j d :
  tableMap_get tables tid = Some t -> (j < length (rows t))%nat -> (d <= maxDepthBound rels)%nat ->
  (tid, j, d) ∈ keyUniverse tables rels.
Proof.
  intros Ht Hj Hd. apply tableMap_get_spec in Ht as [Hin <-].
  unfold keyUniverse. apply elem_of_list_to_set. apply list_elem_of_In.
  apply in_flat_map. exists t. split; [done|].
  apply in_flat_map. exists j. split; [apply in_seq; lia|].
  apply in_map_iff. exists d. split; [done|]. apply in_seq; lia.
Qed.

Lemma enumerate_from_in {A} n (l : list A) i x :
  In (i, x) (enumerate_from n l) -> (n <= i < n + length l)%nat.
Proof.
  revert n. induction l as [|y l IH]; simpl; intros n H; [done|].
  destruct H as [[= <- <-]|H]; [lia|]. apply IH in H. lia.
Qed.

Lemma matchRows_in t col v j m : In (j, m) (matchRows t col v) -> (j < length (rows t))%nat.
Proof. unfold matchRows. intros H. apply filter_In in H as [H _]. apply enumerate_from_in in H. apply H. Qed.

Lemma first_some_spec {A B} (f : A -> option B) l b :
  first_some f l = Some b -> exists x, In x l /\ f x = Some b.
Proof.
  induction l as [|x l IH]; simpl; [done|].
  destruct (f x) eqn:E; [intros [= <-]; eauto|]. intros H. destruct (IH H) as (y & ? & ?). eauto.
Qed.

Lemma findPivotInfo_spec tables pivots tid col p sib :
  findPivotInfo tables pivots tid col = Some (p, sib) -> In p pivots /\ pivot_tableId p = tid.
Proof.
  unfold findPivotInfo. destruct (tableMap_get tables tid) as [tbl|]; [|done]. intros H.
  apply first_some_spec in H as (q & Hq & E).
  destruct (String.eqb (pivot_tableId q) tid) eqn:Et; simpl in E; [|done].
  apply first_some_spec in E as (g & _ & E).
  destruct existsb; [|done]. injection E as <- _. split; [done|by apply String.eqb_eq].
Qed.

Lemma childDepth_bound rels rel tid parent d :
  In rel rels -> (d <= maxDepthBound rels)%nat ->
  edge_blocked rel tid parent d (childTableIdOf rel tid) = false ->
  ((if is_recursive tid parent (childTableIdOf rel tid) then S d else 0) <= maxDepthBound rels)%nat.
Proof.
  intros Hin Hd. unfold edge_blocked. destruct is_recursive; [|lia].
  destruct (maxDepth rel) as [m|] eqn:Em; [|done].
  intros Hb. apply orb_false_iff in Hb as [H0 H1].
  rewrite Z.geb_leb in H1. apply Z.leb_gt in H1.
  pose proof (maxDepth_le_bound rels rel m Hin Em). lia.
Qed.

Section Safety.

Variable tables : list TableData.
Variable relationships : list RelationshipEdge.
Variable columnsFilter : option (list (string * list string)).
Variable columnSplits : list ColumnSplit.
Variable tablePivots : list TablePivot.

Local Abbreviation U := (keyUniverse tables relationships).
Local Abbreviation tget := (tableMap_get tables).
Local Abbreviation bound := (maxDepthBound relationships).
Local Abbreviation PI := (pivot_slots_fresh tablePivots).

Lemma projectRow_fresh tid row : PI tid (projectRow tables columnsFilter columnSplits tablePivots tid row).
Proof. intros p Hp Ht. unfold projectRow, applyTransforms. apply applyPivots_fresh. right. eauto. Qed.

Lemma hd_uniqBy_fresh ys : ys <> [] -> Forall fresh_obj ys -> fresh_obj (hd VNull (uniqBy ys)).
Proof.
  destruct ys as [|y ys]; [done|]. intros _ Hf. inversion Hf; subst.
  destruct (uniqBy_cons y ys) as [zs ->]. done.
Qed.

Lemma relStep_safe f (build : builder) tid t row parent d projected rel :
  (forall tid' j row' p' d' t', tget tid' = Some t' -> (j < length (rows t'))%nat -> (d' <= bound)%nat ->
     safe U f (build tid' j row' p' d') (fun _ => True)) ->
  tget tid = Some t -> (d <= bound)%nat -> In rel relationships -> PI tid projected ->
  safe U f (relStep tables relationships tablePivots build tid row parent d projected rel) (PI tid).
Proof.
  intros Hb Ht Hd Hrel HPI. unfold relStep. cbv zeta.
  destruct (edge_blocked rel tid parent d (childTableIdOf rel tid)) eqn:Eb; [by apply safe_ret|].
  destruct (tget (childTableIdOf rel tid)) as [ct|] eqn:Ect; [|by apply safe_ret].
  pose proof (childDepth_bound relationships rel tid parent d Hrel Hd Eb) as Hcd.
  set (cd := if is_recursive tid parent (childTableIdOf rel tid) then S d else 0%nat) in *.
  assert (Hchild : forall col v m, In m (matchRows ct col v) ->
    safe U f (buildChild tables relationships build rel (childTableIdOf rel tid) tid cd m) fresh_obj).
  { intros col v [j mrow] Hm. unfold buildChild. eapply safe_bind.
    - eapply Hb; [exact Ect | eapply matchRows_in; exact Hm | exact Hcd].
    - intros o _. apply safe_ret. eexists; reflexivity. }
  destruct (findPivotInfo tables tablePivots tid (localColOf rel tid)) as [[pivot sib]|] eqn:Ep.
  - destruct (findPivotInfo_spec tables tablePivots tid _ pivot sib Ep) as [Hp Hpt].
    unfold pivotJoin.
    destruct (oget (arrayName pivot) projected) as [v|] eqn:Ea; [|by apply safe_ret].
    destruct v as [| | | |r arr|]; try by apply safe_ret.
    assert (Harr : Forall fresh_obj arr) by (specialize (HPI pivot Hp Hpt); by rewrite Ea in HPI).
    rewrite Ht. cbv zeta.
    eapply safe_bind.
    + apply (safe_mfold U f _ (fun a => length a = length arr /\ Forall fresh_obj a)); [|by split].
      intros a [i idx] Hin [Hlen Hfa].
      apply enumerate_from_in in Hin. rewrite length_firstn in Hin.
      unfold pivotElemStep. cbv zeta. simpl fst; simpl snd.
      destruct (oget idx sib) as [colName|]; [|by apply safe_ret].
      destruct (String.eqb colName "" || negb (ohas colName row)); [by apply safe_ret|].
      destruct (matchRows ct (remoteColOf rel tid) (oget colName row)) as [|m ms] eqn:Em;
        [by apply safe_ret|].
      eapply safe_bind.
      { apply safe_mmap. intros x Hx. eapply Hchild. rewrite Em. exact Hx. }
      intros ys _. unfold setElementProp.
      destruct (nth_error a i) as [e|] eqn:En.
      * apply nth_error_In in En as Hine.
        destruct (proj1 (List.Forall_forall _ _) Hfa e Hine) as [fs ->].
        apply safe_ret. split; [by rewrite length_insert|].
        apply Forall_insert; [done|eexists; reflexivity].
      * apply nth_error_None in En. lia.
    + intros arr' [_ Hf']. apply safe_ret.
      apply pivot_slots_fresh_oset; [|done]. intros. exact Hf'.
  - unfold plainJoin. cbv zeta.
    destruct (matchRows ct (remoteColOf rel tid) (oget (localColOf rel tid) row)) as [|m ms] eqn:Em;
      [by apply safe_ret|].
    eapply safe_bind.
    { apply safe_mmap. intros x Hx. eapply Hchild. rewrite Em. exact Hx. }
    intros ys [Hl Hys].
    assert (Hne : ys <> []) by (intros ->; discriminate Hl).
    assert (Hu : Forall fresh_obj (uniqBy ys)) by (by apply uniq_go_Forall).
    set (pn := match propertyName rel with Some p => p | None => name ct end).
    destruct (type rel) as [[]|].
    + destruct (truthy (oget pn projected)) eqn:Etr; apply safe_ret;
        apply pivot_slots_fresh_oset; try done; intros p Hp Hpt Hpk; simpl.
      apply uniq_go_Forall, Forall_app. split; [|done].
      specialize (HPI p Hp Hpt). rewrite Hpk in HPI.
      destruct (oget pn projected) as [[| | | |r xs|[]]|]; simpl in HPI |- *; try done.
      all: constructor; [eexists; reflexivity|constructor].
    + apply safe_ret. apply pivot_slots_fresh_oset; [|done]. intros.
      destruct (hd_uniqBy_fresh ys Hne Hys) as [fs ->]. done.
    + destruct (truthy (oget pn projected)) eqn:Etr; apply safe_ret;
        apply pivot_slots_fresh_oset; try done; intros p Hp Hpt Hpk; simpl.
      apply uniq_go_Forall, Forall_app. split; [|done].
      specialize (HPI p Hp Hpt). rewrite Hpk in HPI.
      destruct (oget pn projected) as [[| | | |r xs|[]]|]; simpl in HPI |- *; try done.
      all: constructor; [eexists; reflexivity|constructor].
Qed.

Lemma buildNested_safe f : forall tid j row parent d t,
  tget tid = Some t -> (j < length (rows t))%nat -> (d <= bound)%nat ->
  safe U f (buildNested tables relationships columnsFilter columnSplits tablePivots f tid j row parent d)
    (fun _ => True).
Proof.
  induction f as [|f IH]; intros tid j row parent d t Ht Hj Hd s Hs Hf.
  - exfalso. pose proof (subseteq_size _ _ Hs). lia.
  - simpl. case_decide as Hk.
    + exists (projectRow tables columnsFilter columnSplits tablePivots tid row), s. repeat split; done.
    + assert (HkU : (tid, j, d) ∈ U) by (eapply key_in_U; eauto).
      assert (Hsz : size ({[(tid, j, d)]} ∪ s) = S (size s)).
      { rewrite size_union; [rewrite size_singleton; lia|set_solver]. }
      destruct (safe_mfold U f
        (relStep tables relationships tablePivots
           (buildNested tables relationships columnsFilter columnSplits tablePivots f) tid row parent d)
        (PI tid) (relsOf relationships tid) (projectRow tables columnsFilter columnSplits tablePivots tid row))
        with (s := {[(tid, j, d)]} ∪ s) as (a & s' & E & H1 & H2 & _).
      * intros a rel Hrel Ha. eapply relStep_safe; eauto.
        unfold relsOf in Hrel. apply filter_In in Hrel. tauto.
      * apply projectRow_fresh.
      * set_solver.
      * lia.
      * exists a, s'. rewrite E. split; [done|]. split; [set_solver|done].
Qed.

End Safety.

(* ------------------------------------------------------------------ *)
(** ** Top level *)

Lemma json_eqb_refl : forall v, json_eqb v v = true.
Proof.
  fix IH 1. intros v. destruct v as [| b | n | s | r xs | r fs]; simpl.
  - done.
  - by destruct b.
  - apply Z.eqb_refl.
  - apply String.eqb_refl.
  - induction xs as [|x xs IHxs]; [done|]. simpl. rewrite IH. exact IHxs.
  - induction fs as [|[k x] fs IHfs]; [done|]. simpl. rewrite String.eqb_refl, IH. exact IHfs.
Qed.

Lemma buildJoinedDocument_lead_ok leadTableId i tables rels opts t :
  tableMap_get tables leadTableId = Some t -> (0 <= i < Z.of_nat (length (rows t)))%Z ->
  exists doc, buildJoinedDocument leadTableId i tables rels opts = JOk doc.
Proof.
  intros Ht Hi. unfold buildJoinedDocument. rewrite Ht.
  destruct (Z.leb_spec 0 i) as [_|]; [|lia].
  destruct (nth_error (rows t) (Z.to_nat i)) as [row|] eqn:Er.
  2: { apply nth_error_None in Er. lia. }
  assert (Hj : (Z.to_nat i < length (rows t))%nat) by lia.
  cbv zeta.
  lazymatch goal with
  | |- context [buildNested ?tb ?rl ?cf ?cs ?tp ?fu ?ti ?ix ?rw ?pa ?dp ∅] =>
      destruct (buildNested_safe tb rl cf cs tp fu ti ix rw pa dp t Ht Hj (Nat.le_0_l _) ∅)
        as (a & s' & E & _)
  end.
  - set_solver.
  - rewrite size_empty. unfold fuel. lia.
  - rewrite E. eauto.
Qed.

Lemma buildJoinedDocument_cases leadTableId i tables rels opts :
  (tableMap_get tables leadTableId = None /\
   buildJoinedDocument leadTableId i tables rels opts = JThrow (LeadTableNotFound leadTableId)) \/
  (exists t, tableMap_get tables leadTableId = Some t /\ ~ (0 <= i < Z.of_nat (length (rows t)))%Z /\
   buildJoinedDocument leadTableId i tables rels opts = JThrow (LeadRowNotFound i)) \/
  (exists t doc, tableMap_get tables leadTableId = Some t /\ (0 <= i < Z.of_nat (length (rows t)))%Z /\
   buildJoinedDocument leadTableId i tables rels opts = JOk doc).
Proof.
  destruct (tableMap_get tables leadTableId) as [t|] eqn:Ht.
  - right. destruct (decide (0 <= i < Z.of_nat (length (rows t)))%Z) as [Hi|Hi].
    + right. destruct (buildJoinedDocument_lead_ok leadTableId i tables rels opts t Ht Hi) as [doc E].
      eauto.
    + left. exists t. split; [done|]. split; [done|].
      unfold buildJoinedDocument. rewrite Ht.
      destruct (Z.leb_spec 0 i); [|done].
      destruct (nth_error (rows t) (Z.to_nat i)) as [row|] eqn:Er; [|done].
      exfalso. apply Hi. split; [done|].
      assert (Z.to_nat i < length (rows t))%nat by (apply nth_error_Some; congruence). lia.
  - left. split; [done|]. unfold buildJoinedDocument. by rewrite Ht.
Qed.

Lemma mfold_const {A B} (g : A -> B -> M A) a xs s :
  (forall x, In x xs -> g a x = ret a) -> mfold g a xs s = Done a s.
Proof.
  induction xs as [|x xs IH]; intros H; simpl; [done|].
  unfold bind. rewrite H by (simpl; auto). apply IH. intros; apply H; simpl; auto.
Qed.

Lemma StronglySorted_weaken {A} (R R' : A -> A -> Prop) l :
  (forall a b, In a l -> In b l -> R a b -> R' a b) -> StronglySorted R l -> StronglySorted R' l.
Proof.
  induction l as [|x l IH]; intros H Hs; [constructor|].
  apply StronglySorted_inv in Hs as [Hs Hx]. constructor.
  - apply IH; [intros; apply H; simpl; auto|done].
  - apply List.Forall_forall. intros y Hy. apply H; simpl; auto.
    by apply (proj1 (List.Forall_forall _ _) Hx).
Qed.

Lemma first_split_none_other tableId c sp :
  (String.eqb (split_tableId sp) tableId && String.eqb (split_column sp) c) = false ->
  split_tableId sp = tableId -> split_column sp <> c.
Proof.
  intros E Ht Hc. rewrite Ht, Hc, !String.eqb_refl in E. discriminate.
Qed.

(* ------------------------------------------------------------------ *)
(** ** The claims *)

(** C1 (code bug). The pivot-aware join pairs the [i]-th sorted index with
    the [i]-th element of the pivot array, but the array leaves out the
    indices whose columns are absent from the projected row. With table [T]
    projected to [Item2] only, the single element [{Item: 2}] receives the
    child row matching [Item1 = 1] ([k = 1]) rather than the one matching its
    own value [2]; without the projection each element gets its own match. *)
Theorem pivot_join_misaligned_element :
  buildJoinedDocument "t" 0 [tableT; tableK] [edge "t" "c" "Item1" "k"]
    (Some (pivotOptions (Some [("t", ["Item2"])]))) =
  JOk [("T", VObj None [("Items", VArr None
         [VObj None [("Item", VNum 2); ("C", VArr None [VObj None [("k", VNum 1)]])]])])] /\
  buildJoinedDocument "t" 0 [tableT; tableK] [edge "t" "c" "Item1" "k"] (Some (pivotOptions None)) =
  JOk [("T", VObj None [("Items", VArr None
         [VObj None [("Item", VNum 1); ("C", VArr None [VObj None [("k", VNum 1)]])];
          VObj None [("Item", VNum 2); ("C", VArr None [VObj None [("k", VNum 2)]])]])])].
Proof. split; vm_compute; reflexivity. Qed.

(** C2. On a recursive edge (its child table is the current table or the
    immediate parent), [maxDepth] undefined or [0], or a depth that reached
    [maxDepth], leaves the row as it is; a depth below [maxDepth] follows the
    edge with the depth raised by one. Over Boss <- Worker <- Intern with
    [maxDepth = 2] the document nests exactly two levels (Worker, then Intern
    without an [Employee] property); without [maxDepth] it nests none. *)
Theorem recursive_edge_depth_bound :
  (forall tables rels pivots (build : builder) tid row parent d projected rel s,
     is_recursive tid parent (childTableIdOf rel tid) = true ->
     (maxDepth rel = None \/ maxDepth rel = Some 0%Z \/
      exists m, maxDepth rel = Some m /\ (m <= Z.of_nat d)%Z) ->
     relStep tables rels pivots build tid row parent d projected rel s = Done projected s) /\
  (forall tables rels pivots (build : builder) tid row parent d projected rel m,
     is_recursive tid parent (childTableIdOf rel tid) = true ->
     maxDepth rel = Some m -> (Z.of_nat d < m)%Z ->
     relStep tables rels pivots build tid row parent d projected rel =
       match tableMap_get tables (childTableIdOf rel tid) with
       | None => ret projected
       | Some ct =>
           match findPivotInfo tables pivots tid (localColOf rel tid) with
           | Some (p, sib) => pivotJoin tables rels build rel tid row (S d) ct p sib projected
           | None => plainJoin tables rels build rel tid row (S d) ct projected
           end
       end) /\
  buildJoinedDocument "e" 0 [employees] [reportsTo (Some 2%Z)] None =
    JOk [("Employee", VObj None
          [("id", VNum 1); ("name", VStr "Boss"); ("manager_id", VNull);
           ("Employee", VArr None
              [VObj None [("id", VNum 2); ("name", VStr "Worker"); ("manager_id", VNum 1);
                 ("Employee", VArr None
                    [VObj None [("id", VNum 3); ("name", VStr "Intern"); ("manager_id", VNum 2)]])]])])] /\
  buildJoinedDocument "e" 0 [employees] [reportsTo None] None =
    JOk [("Employee", VObj None [("id", VNum 1); ("name", VStr "Boss"); ("manager_id", VNull)])].
Proof.
  split; [|split; [|split]].
  - intros tables rels pivots build tid row parent d projected rel s Hr Hm.
    unfold relStep, edge_blocked. cbv zeta. rewrite Hr.
    destruct Hm as [-> | [-> | (m & -> & Hm)]]; [done|done|].
    destruct (Z.eqb_spec m 0); [done|].
    rewrite Z.geb_leb. destruct (Z.leb_spec m (Z.of_nat d)); [done|lia].
  - intros tables rels pivots build tid row parent d projected rel m Hr Hm Hd.
    unfold relStep, edge_blocked. cbv zeta. rewrite Hr, Hm.
    destruct (Z.eqb_spec m 0); [lia|]. rewrite Z.geb_leb.
    destruct (Z.leb_spec m (Z.of_nat d)); [lia|]. done.
  - vm_compute. reflexivity.
  - vm_compute. reflexivity.
Qed.

Lemma recursive_edge_depth_bound_witness :
  relStep [employees] [reportsTo None] [] (fun _ _ _ _ _ => ret []) "e" [] None 0 []
    (reportsTo None) ∅ = Done [] ∅ /\
  relStep [employees] [reportsTo (Some 2%Z)] [] (fun _ _ _ _ _ => ret []) "e" [] None 0 []
    (reportsTo (Some 2%Z)) =
    plainJoin [employees] [reportsTo (Some 2%Z)] (fun _ _ _ _ _ => ret []) (reportsTo (Some 2%Z))
      "e" [] 1 employees [].
Proof.
  split.
  - apply (proj1 recursive_edge_depth_bound); [reflexivity|left; reflexivity].
  - rewrite (proj1 (proj2 recursive_edge_depth_bound) [employees] [reportsTo (Some 2%Z)] []
              (fun _ _ _ _ _ => ret []) "e" [] None 0 [] (reportsTo (Some 2%Z)) 2%Z);
      [reflexivity|reflexivity|reflexivity|simpl; lia].
Defined.

(** C3 (code bug). With [A -> B], [B -> A] and [B -> C], the single matching
    [B] row appears twice under [A.B]: once with its nested [C] and once
    without it. The second edge reaches the same row at the same depth, which
    is already visited, so it gets the bare projection, and the structural
    deduplication keeps both. *)
Theorem reverse_edges_duplicate_entry :
  buildJoinedDocument "a" 0 [tableA; tableB; tableC]
    [edge "a" "b" "b_id" "id"; edge "b" "a" "id" "b_id"; edge "b" "c" "id" "b_id"] None =
  JOk [("A", VObj None
        [("id", VNum 1); ("b_id", VNum 10);
         ("B", VArr None
            [VObj None [("id", VNum 10); ("val", VStr "x");
                        ("C", VArr None [VObj None [("id", VNum 100); ("b_id", VNum 10)]])];
             VObj None [("id", VNum 10); ("val", VStr "x")]])])].
Proof. vm_compute. reflexivity. Qed.

(** C4. The call fails exactly when the lead table does not resolve or the
    lead row index is out of range, with an error naming the table or the
    index; a relationship whose other table is absent is skipped, leaving the
    row as it is. *)
Theorem buildJoinedDocument_fails_iff_lead_invalid leadTableId i tables rels opts :
  ((exists e, buildJoinedDocument leadTableId i tables rels opts = JThrow e) <->
     tableMap_get tables leadTableId = None \/
     exists t, tableMap_get tables leadTableId = Some t /\ ~ (0 <= i < Z.of_nat (length (rows t)))%Z) /\
  (forall e, buildJoinedDocument leadTableId i tables rels opts = JThrow e ->
     e = LeadTableNotFound leadTableId \/ e = LeadRowNotFound i) /\
  (forall pivots (build : builder) tid row parent d projected rel s,
     tableMap_get tables (childTableIdOf rel tid) = None ->
     relStep tables rels pivots build tid row parent d projected rel s = Done projected s).
Proof.
  destruct (buildJoinedDocument_cases leadTableId i tables rels opts)
    as [[Ht E] | [(t & Ht & Hi & E) | (t & doc & Ht & Hi & E)]];
    rewrite E; (split; [|split]).
  - split; [eauto|]. intros _; eauto.
  - intros e [= <-]. by left.
  - intros pivots build tid row parent d projected rel s Hc.
    unfold relStep. cbv zeta. destruct edge_blocked; [done|]. by rewrite Hc.
  - split; [eauto|]. intros _; eauto.
  - intros e [= <-]. by right.
  - intros pivots build tid row parent d projected rel s Hc.
    unfold relStep. cbv zeta. destruct edge_blocked; [done|]. by rewrite Hc.
  - split; [by intros [e ?]|]. intros [Hn|(t' & Ht' & Hi')]; [congruence|].
    rewrite Ht in Ht'. injection Ht' as <-. contradiction.
  - by intros e ?.
  - intros pivots build tid row parent d projected rel s Hc.
    unfold relStep. cbv zeta. destruct edge_blocked; [done|]. by rewrite Hc.
Qed.

Lemma buildJoinedDocument_fails_iff_lead_invalid_witness :
  (exists e, buildJoinedDocument "zz" 0 [tableA] [] None = JThrow e) /\
  (exists e, buildJoinedDocument "a" 5 [tableA] [] None = JThrow e) /\
  relStep [tableA] [edge "a" "zz" "b_id" "id"] [] (fun _ _ _ _ _ => ret []) "a" [] None 0 []
    (edge "a" "zz" "b_id" "id") ∅ = Done [] ∅.
Proof.
  split; [|split].
  - apply (proj1 (buildJoinedDocument_fails_iff_lead_invalid "zz" 0 [tableA] [] None)).
    left. reflexivity.
  - apply (proj1 (buildJoinedDocument_fails_iff_lead_invalid "a" 5 [tableA] [] None)).
    right. exists tableA. split; [reflexivity|simpl; lia].
  - apply (proj2 (proj2 (buildJoinedDocument_fails_iff_lead_invalid "a" 0 [tableA]
             [edge "a" "zz" "b_id" "id"] None))).
    reflexivity.
Defined.

(** C5 (counterexample). For indices [10], [2] and [a] the pairwise
    comparator gives [2, 10, a], and the pivot array follows that order,
    while ordering the whole set lexicographically gives [10, 2, a]. *)
Lemma pivot_mixed_indices_not_lexicographic :
  collectIndices [matchGroupColumns mixedColumns "Item"] = ["10"; "2"; "a"] /\
  sort_by localeCompare ["10"; "2"; "a"] = ["10"; "2"; "a"] /\
  sortedIndices [matchGroupColumns mixedColumns "Item"] = ["2"; "10"; "a"] /\
  oget "Items" (applyPivot mixedColumns mixedRow mixedPivot) =
    Some (VArr None [VObj None [("Item", VNum 2)]; VObj None [("Item", VNum 10)];
                     VObj None [("Item", VNum 0)]]).
Proof. split; [|split; [|split]]; vm_compute; reflexivity. Qed.

Lemma pivot_array_fold (P : string -> obj * bool) idxs acc :
  fold_left (fun arr idx => let '(o, hasValue) := P idx in if hasValue then arr ++ [o] else arr) idxs acc =
  acc ++ map (fun idx => fst (P idx)) (List.filter (fun idx => snd (P idx)) idxs).
Proof.
  revert acc. induction idxs as [|x idxs IH]; intros acc; simpl; [by rewrite app_nil_r|].
  rewrite IH. destruct (P x) as [o b] eqn:E. simpl.
  destruct b; simpl; [rewrite <- app_assoc, E; reflexivity|reflexivity].
Qed.

(** C5 (amended). Two indices that both parse as numbers ([Number] is not
    NaN) compare numerically, other pairs with [localeCompare]. When every
    index a pivot collects parses as a number, the sorted indices are a
    permutation of the collected ones in non-decreasing numeric order, and
    the pivot array holds, in that order, the objects of the indices that
    found a value. *)
Theorem pivot_numeric_indices_sorted cols o q :
  let gm := map (fun g => (g, matchGroupColumns cols (pattern g))) (groups q) in
  let idxs := sortedIndices (map snd gm) in
  forallb (fun a => if Number a then true else false) (collectIndices (map snd gm)) = true ->
  Permutation idxs (collectIndices (map snd gm)) /\
  StronglySorted (fun a b => exists na nb, Number a = Some na /\ Number b = Some nb /\
                                           jsnum_compare na nb <> Gt) idxs /\
  oget (arrayName q) (applyPivot cols o q) =
    Some (VArr None (map (fun idx => VObj None (fst (pivotObject o gm idx)))
                         (List.filter (fun idx => snd (pivotObject o gm idx)) idxs))).
Proof.
  intros gm idxs Hn.
  assert (Hin : forall a, In a (collectIndices (map snd gm)) -> Number a <> None).
  { intros a Ha. rewrite forallb_forall in Hn. specialize (Hn a Ha).
    by destruct (Number a). }
  assert (Hp := sort_by_perm compareIndices (collectIndices (map snd gm))).
  split; [exact Hp|]. split.
  - eapply StronglySorted_weaken.
    2: { unfold idxs, sortedIndices, sort_by.
         apply (@sort_by_sorted_acc compareIndices compareIndices_antisym (collectIndices (map snd gm))
                  (@all_numeric_consistent _ Hin) (collectIndices (map snd gm)) []);
           [auto|intros _ []|constructor]. }
    intros a b Ha Hb Hab.
    apply (Permutation_in _ Hp) in Ha. apply (Permutation_in _ Hp) in Hb.
    unfold cmp_le, compareIndices in Hab.
    destruct (Number a) as [na|] eqn:Ea; [|by destruct (Hin a Ha)].
    destruct (Number b) as [nb|] eqn:Eb; [|by destruct (Hin b Hb)].
    exists na, nb. split; [done|]. split; [done|]. exact Hab.
  - unfold applyPivot. fold gm. fold idxs. rewrite oget_oset_eq.
    rewrite (pivot_array_fold (pivotObject o gm)). simpl. by rewrite map_map.
Qed.

Lemma pivot_numeric_indices_sorted_witness :
  forallb (fun a => if Number a then true else false)
    (collectIndices (map snd (map (fun g => (g, matchGroupColumns spacedColumns (pattern g))) (groups itemsPivot))))
    = true /\
  sortedIndices (map snd (map (fun g => (g, matchGroupColumns spacedColumns (pattern g))) (groups itemsPivot)))
    = [" 1"; " 2"; " 10"] /\
  oget "Items" (applyPivot spacedColumns spacedRow itemsPivot) =
    Some (VArr None [VObj None [("Item", VNum 1)]; VObj None [("Item", VNum 2)];
                     VObj None [("Item", VNum 10)]]).
Proof.
  assert (H : forallb (fun a => if Number a then true else false)
    (collectIndices (map snd (map (fun g => (g, matchGroupColumns spacedColumns (pattern g))) (groups itemsPivot))))
    = true) by (vm_compute; reflexivity).
  split; [exact H|]. split; [vm_compute; reflexivity|].
  destruct (pivot_numeric_indices_sorted spacedColumns spacedRow itemsPivot H) as (_ & _ & E).
  refine (eq_trans E _). vm_compute. reflexivity.
Defined.

(** C6 (code bug). The [includedColumns] filter keeps a nested key only when
    it is the display name of a table adjacent to the child table, so a
    nested result stored under a [propertyName] override is dropped: with
    [A -> B] keeping [val] and [B -> C] stored under [kids], the [B] object
    loses [kids], which it has when the first edge has no filter. *)
Theorem included_columns_drop_renamed_nested :
  buildJoinedDocument "a" 0 [tableA; tableB; tableC] [edgeAB_val; edgeBC_kids] None =
    JOk [("A", VObj None [("id", VNum 1); ("b_id", VNum 10);
                          ("B", VArr None [VObj None [("val", VStr "x")]])])] /\
  buildJoinedDocument "a" 0 [tableA; tableB; tableC] [edge "a" "b" "b_id" "id"; edgeBC_kids] None =
    JOk [("A", VObj None
          [("id", VNum 1); ("b_id", VNum 10);
           ("B", VArr None
              [VObj None [("id", VNum 10); ("val", VStr "x");
                          ("kids", VArr None [VObj None [("id", VNum 100); ("b_id", VNum 10)]])]])])].
Proof. split; vm_compute; reflexivity. Qed.

(** C7. For fixed inputs the call ends with a document or a lead error (it
    writes into none of its inputs, so a later call reads the same inputs),
    and two documents it returns are deep-equal. *)
Theorem buildJoinedDocument_deterministic leadTableId i tables rels opts :
  ((exists doc, buildJoinedDocument leadTableId i tables rels opts = JOk doc) \/
   (exists e, buildJoinedDocument leadTableId i tables rels opts = JThrow e)) /\
  (forall d1 d2, buildJoinedDocument leadTableId i tables rels opts = JOk d1 ->
     buildJoinedDocument leadTableId i tables rels opts = JOk d2 ->
     json_eqb (VObj None d1) (VObj None d2) = true).
Proof.
  split.
  - destruct (buildJoinedDocument_cases leadTableId i tables rels opts)
      as [[_ E] | [(t & _ & _ & E) | (t & doc & _ & _ & E)]]; eauto.
  - intros d1 d2 E1 E2. rewrite E1 in E2. injection E2 as <-. apply json_eqb_refl.
Qed.

Lemma buildJoinedDocument_deterministic_witness :
  buildJoinedDocument "a" 0 [tableA; tableB] [edge "a" "b" "b_id" "id"] None =
    JOk [("A", VObj None [("id", VNum 1); ("b_id", VNum 10);
                          ("B", VArr None [VObj None [("id", VNum 10); ("val", VStr "x")]])])] /\
  json_eqb
    (VObj None [("A", VObj None [("id", VNum 1); ("b_id", VNum 10);
                                 ("B", VArr None [VObj None [("id", VNum 10); ("val", VStr "x")]])])])
    (VObj None [("A", VObj None [("id", VNum 1); ("b_id", VNum 10);
                                 ("B", VArr None [VObj None [("id", VNum 10); ("val", VStr "x")]])])])
  = true.
Proof.
  assert (E : buildJoinedDocument "a" 0 [tableA; tableB] [edge "a" "b" "b_id" "id"] None =
    JOk [("A", VObj None [("id", VNum 1); ("b_id", VNum 10);
                          ("B", VArr None [VObj None [("id", VNum 10); ("val", VStr "x")]])])])
    by (vm_compute; reflexivity).
  split; [exact E|].
  exact (proj2 (buildJoinedDocument_deterministic "a" 0 [tableA; tableB] [edge "a" "b" "b_id" "id"] None)
           _ _ E E).
Defined.

(** C8. After the splits of a table, a column holds: its value unchanged when
    no split of that table names it; otherwise, for the first such split, the
    fresh array of its delimiter-separated pieces, each trimmed, when the
    value is a string, and the value unchanged when it is not. The transforms
    apply the splits first and the pivots to their result. *)
Theorem applySplits_column tableId row splits c :
  oget c (applySplits row splits tableId) =
    match first_split_for tableId c splits with
    | None => oget c row
    | Some sp => match oget c row with
                 | Some (VStr v) => Some (split_pieces v (split_delimiter sp))
                 | other => other
                 end
    end /\
  (forall cols pivots,
     applyTransforms row tableId cols splits pivots =
     applyPivots (applySplits row splits tableId) pivots tableId cols).
Proof.
  split; [|done].
  unfold applySplits, first_split_for. revert row.
  induction splits as [|sp splits IH]; intros row; simpl; [done|].
  destruct (String.eqb (split_tableId sp) tableId && String.eqb (split_column sp) c) eqn:E.
  - apply andb_true_iff in E as [E1 E2]. apply String.eqb_eq in E1, E2.
    assert (Hc : oget c (applySplit tableId row sp) =
                 match oget c row with
                 | Some (VStr v) => Some (split_pieces v (split_delimiter sp))
                 | other => other
                 end).
    { unfold applySplit. rewrite E1, String.eqb_refl. simpl. rewrite E2.
      destruct (oget c row) as [[]|] eqn:Ev; try done. rewrite oget_oset_eq. done. }
    rewrite applySplits_nonstring_fold; [exact Hc|].
    intros v. rewrite Hc. by destruct (oget c row) as [[]|].
  - rewrite IH. rewrite applySplit_other; [done|].
    by apply first_split_none_other.
Qed.

Lemma oget_In {A} (k : string) (v : A) o : oget k o = Some v -> In (k, v) o.
Proof.
  induction o as [|[k' v'] o IH]; simpl; [discriminate|].
  destruct (String.eqb k k') eqn:E; [|auto].
  intros [= <-]. apply String.eqb_eq in E. subst. auto.
Qed.

Lemma flat_map_nil_In {A B} (f : A -> list B) l x : flat_map f l = [] -> In x l -> f x = [].
Proof.
  induction l as [|y l IH]; simpl; [done|].
  intros H [<-|Hx]; apply app_eq_nil in H as [H1 H2]; auto.
Qed.

(** C9. When no child row matches the values the relationship joins on (the
    local column, or on the pivot-aware path the sibling columns the row has),
    the relationship leaves the projected row as it is, on the plain path and
    on the pivot-aware path alike: no empty array, no [undefined]. *)
Theorem no_match_no_property tables rels pivots (build : builder) tid t row parent d projected rel ct s :
  tableMap_get tables tid = Some t ->
  tableMap_get tables (childTableIdOf rel tid) = Some ct ->
  relationship_matches tables pivots rel tid row ct = [] ->
  relStep tables rels pivots build tid row parent d projected rel s = Done projected s.
Proof.
  intros Ht Hct Hno. unfold relationship_matches in Hno. unfold relStep. cbv zeta.
  destruct edge_blocked; [done|]. rewrite Hct.
  destruct (findPivotInfo tables pivots tid (localColOf rel tid)) as [[p sib]|].
  - unfold pivotJoin.
    destruct (oget (arrayName p) projected) as [v|] eqn:Ea; [|done].
    destruct v as [| | | |r arr|]; try done.
    rewrite Ht. cbv zeta. unfold bind. rewrite mfold_const.
    + unfold ret. by rewrite oset_oget_same.
    + intros [i idx] _. unfold pivotElemStep. cbv zeta. simpl.
      destruct (oget idx sib) as [colName|] eqn:Ei; [|done].
      destruct (String.eqb colName "" || negb (ohas colName row)) eqn:Eh; [done|].
      apply orb_false_iff in Eh as [_ Eh]. apply negb_false_iff in Eh.
      pose proof (flat_map_nil_In _ _ (idx, colName) Hno (oget_In _ _ _ Ei)) as Hm.
      simpl in Hm. rewrite Eh in Hm. by rewrite Hm.
  - unfold plainJoin. cbv zeta. by rewrite Hno.
Qed.

Lemma no_match_no_property_witness :
  relStep [tableA; tableB] [edge "a" "b" "b_id" "id"] [] (fun _ _ _ _ _ => ret []) "a"
    [("id", VNum 10); ("b_id", VNum 99)] None 0 [("id", VNum 10); ("b_id", VNum 99)]
    (edge "a" "b" "b_id" "id") ∅ =
  Done [("id", VNum 10); ("b_id", VNum 99)] ∅ /\
  relStep [tableT; tableK] [edge "t" "c" "Item1" "k"] [itemsPivot] (fun _ _ _ _ _ => ret []) "t"
    [("Item1", VNum 5); ("Item2", VNum 6)] None 0
    [("Items", VArr None [VObj None [("Item", VNum 5)]; VObj None [("Item", VNum 6)]])]
    (edge "t" "c" "Item1" "k") ∅ =
  Done [("Items", VArr None [VObj None [("Item", VNum 5)]; VObj None [("Item", VNum 6)]])] ∅.
Proof.
  split.
  - apply (no_match_no_property [tableA; tableB] [edge "a" "b" "b_id" "id"] [] (fun _ _ _ _ _ => ret [])
             "a" tableA [("id", VNum 10); ("b_id", VNum 99)] None 0 [("id", VNum 10); ("b_id", VNum 99)]
             (edge "a" "b" "b_id" "id") tableB ∅).
    + reflexivity.
    + reflexivity.
    + vm_compute. reflexivity.
  - apply (no_match_no_property [tableT; tableK] [edge "t" "c" "Item1" "k"] [itemsPivot]
             (fun _ _ _ _ _ => ret []) "t" tableT [("Item1", VNum 5); ("Item2", VNum 6)] None 0
             [("Items", VArr None [VObj None [("Item", VNum 5)]; VObj None [("Item", VNum 6)]])]
             (edge "t" "c" "Item1" "k") tableK ∅).
    + reflexivity.
    + reflexivity.
    + vm_compute. reflexivity.
Defined.

(** C10. No call writes into an object of its inputs: the only assignments
    that could reach one, those into the elements of a pivot array, always
    find an object the call created; the call ends with a document or a lead
    error. *)
Theorem buildJoinedDocument_no_input_write leadTableId i tables rels opts :
  buildJoinedDocument leadTableId i tables rels opts <> JInputWrite /\
  buildJoinedDocument leadTableId i tables rels opts <> JOutsideModel.
Proof.
  destruct (buildJoinedDocument_cases leadTableId i tables rels opts)
    as [[_ E] | [(t & _ & _ & E) | (t & doc & _ & _ & E)]]; rewrite E; split; discriminate.
Qed.


(* ================================================================== *)
(** * Further properties of the code *)

Lemma string_app_cons c (a b : string) : String.append (String c a) b = String c (String.append a b).
Proof. reflexivity. Qed.

Lemma string_app_nil_l (b : string) : String.append EmptyString b = b.
Proof. reflexivity. Qed.

Lemma string_app_nil_r (a : string) : String.append a "" = a.
Proof. induction a as [|c a IH]; [done|]. by rewrite string_app_cons, IH. Qed.

Lemma string_app_assoc (a b c : string) :
  String.append (String.append a b) c = String.append a (String.append b c).
Proof. induction a as [|x a IH]; [done|]. by rewrite !string_app_cons, IH. Qed.

Lemma string_app_inj (p x y : string) : String.append p x = String.append p y -> x = y.
Proof. induction p as [|c p IH]; [done|]. rewrite !string_app_cons. intros [= H]. auto. Qed.

Lemma prefix_app (p s : string) : String.prefix p (String.append p s) = true.
Proof.
  induction p as [|c p IH]; [by destruct s|]. rewrite string_app_cons. simpl.
  destruct (ascii_dec c c); [done|congruence].
Qed.

Lemma substring_0_length (s : string) : String.substring 0 (String.length s) s = s.
Proof. induction s as [|c s IH]; simpl; [done|by rewrite IH]. Qed.

Lemma prefix_split (p c : string) : String.prefix p c = true ->
  c = String.append p (String.substring (String.length p) (String.length c - String.length p) c).
Proof.
  revert c. induction p as [|a p IH]; intros c H; simpl.
  - by rewrite Nat.sub_0_r, substring_0_length.
  - destruct c as [|b c]; simpl in H; [done|].
    destruct (ascii_dec a b) as [<-|]; [|done]. simpl. rewrite string_app_cons. f_equal. by apply IH.
Qed.

Lemma matchGroupColumns_fold cols pat idx acc :
  oget idx (fold_left (fun result col =>
    if String.prefix pat col then
      let suffix := String.substring (String.length pat)
                      (String.length col - String.length pat) col in
      if (0 <? String.length suffix)%nat then oset suffix col result else result
    else result) cols acc) =
  if (0 <? String.length idx)%nat && existsb (String.eqb (String.append pat idx)) cols
  then Some (String.append pat idx) else oget idx acc.
Proof.
  revert acc. induction cols as [|col cols IH]; intros acc; simpl.
  - by rewrite andb_false_r.
  - rewrite IH. clear IH.
    destruct (0 <? String.length idx)%nat eqn:Hl; simpl.
    2:{ cbv zeta. repeat case_match; try done.
        apply oget_oset_ne. intros E. rewrite E in *. congruence. }
    destruct (String.prefix pat col) eqn:Hp.
    + pose proof (prefix_split pat col Hp) as Hc. cbv zeta.
      remember (String.substring (String.length pat) (String.length col - String.length pat) col)
        as suffix eqn:Hs. clear Hs. subst col.
      destruct (String.eqb (String.append pat idx) (String.append pat suffix)) eqn:Ei; simpl.
      * apply String.eqb_eq, string_app_inj in Ei. subst suffix. rewrite Hl.
        destruct existsb; [done|]. apply oget_oset_eq.
      * destruct (existsb (String.eqb (String.append pat idx)) cols); [done|].
        destruct (0 <? String.length suffix)%nat; [|done].
        apply oget_oset_ne. intros <-. by rewrite String.eqb_refl in Ei.
    + destruct (String.eqb (String.append pat idx) col) eqn:Ei; simpl; [|done].
      apply String.eqb_eq in Ei. subst col. by rewrite prefix_app in Hp.
Qed.

(** X1. [matchGroupColumns] maps an index to a column exactly when the index is non-empty and pattern ++ index is one of the columns; the column is then pattern ++ index. *)
Theorem matchGroupColumns_lookup cols pat idx :
  oget idx (matchGroupColumns cols pat) =
  if (0 <? String.length idx)%nat && existsb (String.eqb (String.append pat idx)) cols
  then Some (String.append pat idx) else None.
Proof. unfold matchGroupColumns. by rewrite matchGroupColumns_fold. Qed.

Lemma split_go_nonempty d f s cur : split_go d f s cur <> [].
Proof.
  revert s cur. induction f as [|f IH]; intros s cur; simpl; [done|].
  destruct s; [done|]. destruct String.prefix; [done|apply IH].
Qed.

Lemma concat_cons d x l : l <> [] ->
  String.concat d (x :: l) = String.append x (String.append d (String.concat d l)).
Proof. destruct l; [done|reflexivity]. Qed.

Lemma split_go_join d f s cur : String.concat d (split_go d f s cur) = String.append cur s.
Proof.
  revert s cur. induction f as [|f IH]; intros s cur; cbn [split_go]; [done|].
  destruct s as [|c s']; [by rewrite string_app_nil_r|].
  destruct (String.prefix d (String c s')) eqn:Hp.
  - rewrite concat_cons by apply split_go_nonempty. rewrite IH, string_app_nil_l.
    f_equal. symmetry. by apply prefix_split.
  - rewrite IH, string_app_assoc. reflexivity.
Qed.

Lemma concat_chars s : String.concat "" (map (fun c => String c EmptyString) (list_ascii_of_string s)) = s.
Proof.
  induction s as [|c s IH]; [done|]. cbn [list_ascii_of_string map].
  destruct s as [|c' s']; [done|]. rewrite concat_cons by done. rewrite string_app_cons, string_app_nil_l, string_app_nil_l. f_equal. exact IH.
Qed.

(** X2. Joining the pieces of [split] with the delimiter gives back the string. *)
Theorem js_split_join s d : String.concat d (js_split s d) = s.
Proof. destruct d as [|a d']; [apply concat_chars|]. apply split_go_join. Qed.

(** X3. With a non-empty delimiter, [split] returns at least one piece. *)
Theorem js_split_nonempty s d : d <> EmptyString -> js_split s d <> [].
Proof. destruct d as [|a d']; [done|]. intros _. apply split_go_nonempty. Qed.

Lemma js_split_nonempty_witness : "," <> EmptyString /\ js_split "" "," <> [].
Proof. split; [discriminate|]. apply (js_split_nonempty "" ","). discriminate. Defined.

Lemma applySplit_unchanged tid out sp :
  (forall v, oget (split_column sp) out <> Some (VStr v)) -> applySplit tid out sp = out.
Proof.
  intros H. unfold applySplit. destruct (negb _); [done|].
  destruct (oget (split_column sp) out) as [[]|] eqn:E; try done. by destruct (H s).
Qed.

Lemma applySplit_column_nonstring tid out sp :
  split_tableId sp = tid -> forall v, oget (split_column sp) (applySplit tid out sp) <> Some (VStr v).
Proof.
  intros Ht v. unfold applySplit. rewrite Ht, String.eqb_refl. simpl.
  destruct (oget (split_column sp) out) as [[]|] eqn:E; try (rewrite E; congruence).
  rewrite oget_oset_eq. congruence.
Qed.

Lemma applySplits_columns_nonstring splits tid out sp :
  In sp splits -> split_tableId sp = tid ->
  forall v, oget (split_column sp) (fold_left (applySplit tid) splits out) <> Some (VStr v).
Proof.
  revert out. induction splits as [|sp' splits IH]; intros out Hin Ht; [done|].
  destruct Hin as [<-|Hin]; simpl.
  - rewrite applySplits_nonstring_fold; [by apply applySplit_column_nonstring|].
    by apply applySplit_column_nonstring.
  - by apply IH.
Qed.

Lemma applySplits_stable splits tid out :
  (forall sp, In sp splits -> split_tableId sp = tid -> forall v, oget (split_column sp) out <> Some (VStr v)) ->
  fold_left (applySplit tid) splits out = out.
Proof.
  revert out. induction splits as [|sp splits IH]; intros out H; simpl; [done|].
  assert (E : applySplit tid out sp = out).
  { destruct (String.eqb (split_tableId sp) tid) eqn:Et.
    - apply applySplit_unchanged. apply H; [simpl; auto|by apply String.eqb_eq].
    - unfold applySplit. by rewrite Et. }
  rewrite E. apply IH. intros; apply H; simpl; auto.
Qed.

(** X4. Applying the same column splits twice gives the result of applying them once. *)
Theorem applySplits_idempotent row splits tid :
  applySplits (applySplits row splits tid) splits tid = applySplits row splits tid.
Proof.
  unfold applySplits. apply applySplits_stable. intros sp Hin Ht.
  by apply applySplits_columns_nonstring.
Qed.

Lemma existsb_eqb_In (x : string) l : existsb (String.eqb x) l = true <-> In x l.
Proof.
  rewrite existsb_exists. split.
  - intros (y & Hy & E). apply String.eqb_eq in E. by subst.
  - intros H. exists x. split; [done|apply String.eqb_refl].
Qed.

Lemma oget_delete_fold k cs (o : obj) :
  oget k (fold_left (fun out colName => odelete colName out) cs o) =
  if existsb (String.eqb k) cs then None else oget k o.
Proof.
  revert o. induction cs as [|c cs IH]; intros o; simpl; [done|].
  rewrite IH, oget_odelete, String.eqb_sym.
  destruct (String.eqb k c), (existsb (String.eqb k) cs); done.
Qed.

(** X5. One pivot leaves every key other than its array name as it was, except the columns some group matched, which it deletes. *)
Theorem applyPivot_columns cols o q k :
  k <> arrayName q ->
  oget k (applyPivot cols o q) = if pivoted_column cols q k then None else oget k o.
Proof.
  intros Hk. unfold applyPivot, pivoted_column. cbv zeta. rewrite oget_oset_ne by congruence.
  generalize (groups q) as gs. clear Hk. intros gs. revert o.
  induction gs as [|g gs IH]; intros o; simpl; [done|].
  rewrite IH, oget_delete_fold.
  assert (E : existsb (String.eqb k) (map snd (matchGroupColumns cols (pattern g))) =
              existsb (fun p => String.eqb (snd p) k) (matchGroupColumns cols (pattern g))).
  { induction (matchGroupColumns cols (pattern g)) as [|[a b] l IHl]; simpl; [done|].
    by rewrite String.eqb_sym, IHl. }
  rewrite E. destruct (existsb _ (matchGroupColumns cols (pattern g))), (existsb _ gs); reflexivity.
Qed.

Lemma applyPivot_columns_witness :
  "Id" <> arrayName itemsPivot /\
  oget "Id" (applyPivot ["Id"; "Item1"] [("Id", VNum 1); ("Item1", VNum 10)] itemsPivot) =
  (if pivoted_column ["Id"; "Item1"] itemsPivot "Id" then None
   else oget "Id" [("Id", VNum 1); ("Item1", VNum 10)]).
Proof. split; [discriminate|]. apply applyPivot_columns. discriminate. Defined.

Lemma In_oset {A} (c k : string) (v w : A) o :
  In (k, w) (oset c v o) -> (k = c /\ w = v) \/ In (k, w) o.
Proof.
  induction o as [|[k' v'] o IH]; simpl.
  - intros [[= <- <-]|[]]. by left.
  - destruct (String.eqb c k') eqn:E; simpl.
    + intros [[= <- <-]|H]; [by left|]. right; by right.
    + intros [[= <- <-]|H]; [right; by left|]. destruct (IH H) as [?|?]; [by left|right; by right].
Qed.

Lemma oset_nonempty {A} (c : string) (v : A) o : oset c v o <> [].
Proof. destruct o as [|[k' v'] o]; simpl; [done|]. by destruct String.eqb. Qed.

Lemma pivotObject_spec cols o gs idx e hv :
  pivotObject o (map (fun g => (g, matchGroupColumns cols (pattern g))) gs) idx = (e, hv) ->
  (hv = true -> e <> []) /\ elem_from cols o gs e.
Proof.
  unfold pivotObject.
  match goal with |- fold_left ?f _ _ = _ -> _ => set (F := f) end.
  assert (Hgen : forall gs' acc hv0, (forall g, In g gs' -> In g gs) ->
            (hv0 = true -> acc <> []) -> elem_from cols o gs acc -> forall e hv,
            fold_left F (map (fun g => (g, matchGroupColumns cols (pattern g))) gs') (acc, hv0) = (e, hv) ->
            (hv = true -> e <> []) /\ elem_from cols o gs e).
  { induction gs' as [|g gs' IH]; intros acc hv0 Hsub Hne Hfrom e' hv'.
    - simpl. intros [= <- <-]. done.
    - change (fold_left F (map (fun g => (g, matchGroupColumns cols (pattern g))) (g :: gs')) (acc, hv0))
        with (fold_left F (map (fun g => (g, matchGroupColumns cols (pattern g))) gs')
                (F (acc, hv0) (g, matchGroupColumns cols (pattern g)))).
      destruct (F (acc, hv0) (g, matchGroupColumns cols (pattern g))) as [acc' hv1] eqn:EF.
      apply IH; [intros; apply Hsub; simpl; auto| |].
      all: unfold F in EF.
      all: destruct (oget idx (matchGroupColumns cols (pattern g))) as [col|] eqn:Ei;
        [|injection EF as <- <-; done].
      all: destruct (String.eqb col ""); [injection EF as <- <-; done|].
      all: destruct (oget col o) as [v|] eqn:Ev; [|injection EF as <- <-; done].
      all: injection EF as <- <-.
      + intros _; apply oset_nonempty.
      + intros k w Hin. apply In_oset in Hin as [[-> ->]|Hin]; [|by apply Hfrom].
        exists g, idx, col. repeat split; try done. apply Hsub; simpl; auto. }
  apply Hgen; [done|done|]. intros k v [].
Qed.

Lemma applyPivot_array_spec cols o q :
  exists arr, oget (arrayName q) (applyPivot cols o q) = Some (VArr None (map (VObj None) arr)) /\
    (length arr <= length (sortedIndices (map (fun g => matchGroupColumns cols (pattern g)) (groups q))))%nat /\
    Forall (fun e => e <> [] /\ elem_from cols o (groups q) e) arr.
Proof.
  unfold applyPivot. cbv zeta. rewrite oget_oset_eq. eexists. split; [reflexivity|].
  rewrite map_map. simpl.
  generalize (sortedIndices (map (fun g => matchGroupColumns cols (pattern g)) (groups q))) as idxs.
  intros idxs.
  match goal with |- (length (fold_left ?G _ _) <= _)%nat /\ _ => set (Gf := G) end.
  set (P := fun e : obj => e <> [] /\ elem_from cols o (groups q) e).
  assert (Hgen : forall acc, Forall P acc ->
            (length (fold_left Gf idxs acc) <= length acc + length idxs)%nat /\
            Forall P (fold_left Gf idxs acc)).
  { induction idxs as [|idx idxs IH]; intros acc Hf.
    - simpl. split; [lia|done].
    - change (fold_left Gf (idx :: idxs) acc) with (fold_left Gf idxs (Gf acc idx)).
      destruct (pivotObject o (map (fun g => (g, matchGroupColumns cols (pattern g))) (groups q)) idx)
        as [e hv] eqn:Ep.
      assert (EG : Gf acc idx = if hv then acc ++ [e] else acc) by (unfold Gf; by rewrite Ep).
      rewrite EG. apply pivotObject_spec in Ep as [Hne He]. destruct hv.
      + destruct (IH (acc ++ [e])) as [IHl IHf].
        { apply Forall_app; split; [done|]. constructor; [|done]. split; [by apply Hne|done]. }
        rewrite length_app in IHl. simpl in *. split; [lia|done].
      + destruct (IH acc Hf) as [IHl IHf]. simpl. split; [lia|done]. }
  destruct (Hgen [] (List.Forall_nil _)) as [H1 H2]. split; [exact H1|exact H2].
Qed.

(** X6. One pivot stores under its array name an array of at most as many objects as there are sorted indices; each object is non-empty and holds, under a group's property name, the value of a column that group matched. *)
Theorem applyPivot_elements cols o q :
  exists arr, oget (arrayName q) (applyPivot cols o q) = Some (VArr None (map (VObj None) arr)) /\
    (length arr <= length (sortedIndices (map (fun g => matchGroupColumns cols (pattern g)) (groups q))))%nat /\
    Forall (fun e => e <> [] /\ elem_from cols o (groups q) e) arr.
Proof. apply applyPivot_array_spec. Qed.

(** X7. When no column matched by a group has a value in the row, the pivot array is empty. *)
Theorem applyPivot_no_values cols o q :
  (forall g idx col, In g (groups q) -> oget idx (matchGroupColumns cols (pattern g)) = Some col ->
     oget col o = None) ->
  oget (arrayName q) (applyPivot cols o q) = Some (VArr None []).
Proof.
  intros H. destruct (applyPivot_array_spec cols o q) as (arr & E & _ & Hf). rewrite E.
  destruct arr as [|e arr]; [done|]. exfalso.
  inversion Hf as [|? ? [Hne He] _]; subst.
  destruct e as [|[k v] e]; [done|].
  destruct (He k v (or_introl eq_refl)) as (g & idx & col & Hg & _ & Hi & Hv).
  by rewrite (H g idx col Hg Hi) in Hv.
Qed.

Lemma applyPivot_no_values_witness :
  (forall g idx col, In g (groups itemsPivot) ->
     oget idx (matchGroupColumns ["Id"; "Item1"] (pattern g)) = Some col -> oget col [("Id", VNum 1)] = None) /\
  oget "Items" (applyPivot ["Id"; "Item1"] [("Id", VNum 1)] itemsPivot) = Some (VArr None []).
Proof.
  assert (H : forall g idx col, In g (groups itemsPivot) ->
     oget idx (matchGroupColumns ["Id"; "Item1"] (pattern g)) = Some col -> oget col [("Id", VNum 1)] = None).
  { intros g idx col [<-|[]] Hi.
    assert (Em : matchGroupColumns ["Id"; "Item1"] "Item" = [("1", "Item1")]) by reflexivity.
    change (pattern _) with "Item" in Hi. rewrite Em in Hi. simpl in Hi.
    destruct (String.eqb idx "1"); [injection Hi as <-; reflexivity|discriminate]. }
  split; [exact H|]. apply (applyPivot_no_values ["Id"; "Item1"] [("Id", VNum 1)] itemsPivot H).
Defined.

(** X8. Pivots configured for other tables leave the row unchanged. *)
Theorem applyPivots_other_tables row ps tid cols :
  (forall p, In p ps -> pivot_tableId p <> tid) -> applyPivots row ps tid cols = row.
Proof.
  unfold applyPivots. revert row. induction ps as [|p ps IH]; intros row H; simpl; [done|].
  destruct (String.eqb (pivot_tableId p) tid) eqn:E.
  - apply String.eqb_eq in E. by destruct (H p (or_introl eq_refl)).
  - simpl. apply IH. intros; apply H; simpl; auto.
Qed.

Lemma applyPivots_other_tables_witness :
  (forall p, In p [itemsPivot] -> pivot_tableId p <> "t1") /\
  applyPivots [("Item1", VNum 10)] [itemsPivot] "t1" ["Item1"] = [("Item1", VNum 10)].
Proof.
  assert (H : forall p, In p [itemsPivot] -> pivot_tableId p <> "t1") by (intros p [<-|[]]; discriminate).
  split; [exact H|]. apply (applyPivots_other_tables _ _ _ _ H).
Defined.

Lemma set_add_spec x s : NoDup s -> NoDup (set_add x s) /\ (forall y, In y (set_add x s) <-> y = x \/ In y s).
Proof.
  intros Hs. unfold set_add. destruct (existsb (String.eqb x) s) eqn:E.
  - apply existsb_eqb_In in E. split; [done|]. intros y. split; [by right|]. by intros [->|].
  - split.
    + apply NoDup_app. split; [done|]. split; [|apply NoDup_singleton].
      intros y Hy Hy2. apply list_elem_of_singleton in Hy2. subst y.
      apply list_elem_of_In, existsb_eqb_In in Hy. congruence.
    + intros y. rewrite List.in_app_iff. simpl. intuition.
Qed.

Lemma collect_fold_inner idxs acc :
  NoDup acc -> NoDup (fold_left (fun acc idx => set_add idx acc) idxs acc) /\
  (forall y, In y (fold_left (fun acc idx => set_add idx acc) idxs acc) <-> In y idxs \/ In y acc).
Proof.
  revert acc. induction idxs as [|x idxs IH]; intros acc Hn; simpl.
  - split; [done|]. intuition.
  - destruct (set_add_spec x acc Hn) as [Hn' Hin].
    destruct (IH _ Hn') as [H1 H2]. split; [done|]. intros y. rewrite H2, Hin. intuition.
Qed.

Lemma collect_fold (maps : list (list (string * string))) acc :
  NoDup acc ->
  NoDup (fold_left (fun acc cols => fold_left (fun acc idx => set_add idx acc) (map fst cols) acc) maps acc) /\
  (forall y, In y (fold_left (fun acc cols => fold_left (fun acc idx => set_add idx acc) (map fst cols) acc) maps acc)
     <-> (exists m, In m maps /\ In y (map fst m)) \/ In y acc).
Proof.
  revert acc. induction maps as [|m maps IH]; intros acc Hn; simpl.
  - split; [done|]. intros y. split; [by right|]. intros [(m & [] & _)|]; done.
  - destruct (collect_fold_inner (map fst m) acc Hn) as [Hn' Hin].
    destruct (IH _ Hn') as [H1 H2]. split; [done|]. intros y. rewrite H2, Hin.
    split.
    + intros [(m' & Hm' & Hy)|[Hy|Hy]]; [left; eauto|left; eauto|by right].
    + intros [(m' & [<-|Hm'] & Hy)|Hy]; [right; by left|left; eauto|right; by right].
Qed.

(** X9. The sorted indices are duplicate-free and are exactly the indices of the group maps. *)
Theorem sortedIndices_spec maps :
  NoDup (sortedIndices maps) /\
  (forall x, In x (sortedIndices maps) <-> exists m, In m maps /\ In x (map fst m)).
Proof.
  unfold sortedIndices, collectIndices.
  destruct (collect_fold maps [] NoDup_nil_2) as [Hn Hin].
  pose proof (sort_by_perm compareIndices
    (fold_left (fun acc cols => fold_left (fun acc idx => set_add idx acc) (map fst cols) acc) maps [])) as Hp.
  split.
  - by rewrite Hp.
  - intros x. split.
    + intros Hx. apply (Permutation_in _ Hp) in Hx. apply Hin in Hx as [|[]]. done.
    + intros Hx. apply (Permutation_in _ (Permutation_sym Hp)). apply Hin. by left.
Qed.

Lemma uniq_go_spec seen xs :
  (forall y s, In y (uniq_go seen xs) -> In s seen -> json_eqb y s = false) /\
  json_distinct (uniq_go seen xs) /\
  (forall x, In x xs -> (exists s, In s seen /\ json_eqb x s = true) \/
                       (exists y, In y (uniq_go seen xs) /\ json_eqb x y = true)) /\
  sublist (uniq_go seen xs) xs.
Proof.
  revert seen. induction xs as [|x xs IH]; intros seen; simpl.
  - split; [done|]. split; [constructor|]. split; [done|constructor].
  - destruct (existsb (json_eqb x) seen) eqn:Ex.
    + destruct (IH seen) as (H1 & H2 & H3 & H4). split; [done|]. split; [done|]. split.
      * intros x' [<-|Hx'].
        -- left. apply existsb_exists in Ex as (s & Hs & E). eauto.
        -- by apply H3.
      * by apply sublist_cons.
    + destruct (IH (x :: seen)) as (H1 & H2 & H3 & H4). split; [|split; [|split]].
      * intros y s [<-|Hy] Hs.
        -- destruct (json_eqb x s) eqn:E; [|done].
           assert (existsb (json_eqb x) seen = true) by (apply existsb_exists; eauto). congruence.
        -- apply H1; [done|by right].
      * constructor; [|done]. apply List.Forall_forall. intros y Hy. apply H1; [done|by left].
      * intros x' [<-|Hx'].
        -- right. exists x. split; [by left|apply json_eqb_refl].
        -- destruct (H3 x' Hx') as [(s & [<-|Hs] & E)|(y & Hy & E)].
           ++ right. exists x. split; [by left|done].
           ++ left. eauto.
           ++ right. exists y. split; [by right|done].
      * by apply sublist_skip.
Qed.

(** X10. [uniqBy] with the JSON key keeps no two JSON-equal entries, keeps a JSON-equal representative of every entry, and returns a subsequence of its input. *)
Theorem uniqBy_spec xs :
  json_distinct (uniqBy xs) /\
  (forall x, In x xs -> exists y, In y (uniqBy xs) /\ json_eqb x y = true) /\
  sublist (uniqBy xs) xs.
Proof.
  unfold uniqBy. destruct (uniq_go_spec [] xs) as (_ & H2 & H3 & H4).
  split; [done|]. split; [|done].
  intros x Hx. destruct (H3 x Hx) as [(s & [] & _)|]; done.
Qed.

(** X11. Every relationship from [toRelationshipEdges] has non-empty join columns and comes from an input edge with these ends and handles. *)
Theorem toRelationshipEdges_sound edges et ecf emd epn r :
  In r (toRelationshipEdges edges et ecf emd epn) ->
  sourceColumn r <> "" /\ targetColumn r <> "" /\
  exists e, In e edges /\ sourceTableId r = source e /\ targetTableId r = target e /\
    sourceHandle e = Some (sourceColumn r) /\ targetHandle e = Some (targetColumn r).
Proof.
  unfold toRelationshipEdges. rewrite filter_In, in_map_iff.
  intros [(e & <- & He) Hc]. apply andb_true_iff in Hc as [Hs Ht].
  apply negb_true_iff, String.eqb_neq in Hs, Ht.
  split; [done|]. split; [done|]. exists e. split; [done|].
  simpl in *. split; [done|]. split; [done|].
  split; [by destruct (sourceHandle e)|by destruct (targetHandle e)].
Qed.

Lemma toRelationshipEdges_sound_witness :
  exists r, In r (toRelationshipEdges [edgeE1; edgeE2] (Some [("e1", OneToOne)]) None None None) /\
  sourceColumn r <> "" /\ targetColumn r <> "" /\
  exists e, In e [edgeE1; edgeE2] /\ sourceTableId r = source e /\ targetTableId r = target e /\
    sourceHandle e = Some (sourceColumn r) /\ targetHandle e = Some (targetColumn r).
Proof.
  exists (edgeToRelationship (Some [("e1", OneToOne)]) None None None edgeE1).
  assert (H : In (edgeToRelationship (Some [("e1", OneToOne)]) None None None edgeE1)
                (toRelationshipEdges [edgeE1; edgeE2] (Some [("e1", OneToOne)]) None None None))
    by (left; reflexivity).
  split; [exact H|]. apply (toRelationshipEdges_sound _ _ _ _ _ _ H).
Defined.

(** X12. An edge with two non-empty handles yields a relationship with its ends and handles and its per-edge settings, the edge-type map taking precedence over the edge's own type. *)
Theorem toRelationshipEdges_complete edges et ecf emd epn e sh th :
  In e edges -> sourceHandle e = Some sh -> targetHandle e = Some th -> sh <> "" -> th <> "" ->
  exists r, In r (toRelationshipEdges edges et ecf emd epn) /\
    sourceTableId r = source e /\ targetTableId r = target e /\
    sourceColumn r = sh /\ targetColumn r = th /\
    type r = match rec_get et (edge_id e) with Some t => Some t | None => edge_data_type e end /\
    includedColumns r = rec_get ecf (edge_id e) /\ maxDepth r = rec_get emd (edge_id e) /\
    propertyName r = rec_get epn (edge_id e).
Proof.
  intros He Hs Ht Hsh Hth. exists (edgeToRelationship et ecf emd epn e).
  split; [|unfold edgeToRelationship; simpl; rewrite Hs, Ht; repeat split].
  unfold toRelationshipEdges. apply filter_In. split; [by apply in_map|].
  unfold edgeToRelationship; simpl. rewrite Hs, Ht.
  apply String.eqb_neq in Hsh, Hth. by rewrite Hsh, Hth.
Qed.

Lemma toRelationshipEdges_complete_witness :
  exists r, In r (toRelationshipEdges [edgeE1; edgeE2] (Some [("e1", OneToOne)]) None None None) /\
    sourceTableId r = "a" /\ targetTableId r = "b" /\ sourceColumn r = "b_id" /\ targetColumn r = "id" /\
    type r = Some OneToOne /\ includedColumns r = None /\ maxDepth r = None /\ propertyName r = None.
Proof.
  apply (toRelationshipEdges_complete [edgeE1; edgeE2] (Some [("e1", OneToOne)]) None None None edgeE1
           "b_id" "id"); [by left|reflexivity|reflexivity|discriminate|discriminate].
Defined.

Lemma project_fold (row : obj) cs acc k :
  oget k (fold_left (fun acc k => match oget k row with Some v => oset k v acc | None => acc end) cs acc) =
  if existsb (String.eqb k) cs
  then match oget k row with Some v => Some v | None => oget k acc end
  else oget k acc.
Proof.
  revert acc. induction cs as [|c cs IH]; intros acc; simpl; [done|].
  rewrite IH. destruct (String.eqb k c) eqn:E; simpl.
  - apply String.eqb_eq in E. subst c.
    destruct (oget k row) as [v|] eqn:Ev; [|by destruct existsb].
    rewrite oget_oset_eq. by destruct existsb.
  - destruct (oget c row) as [v|]; [|done]. rewrite oget_oset_ne; [done|].
    intros ->. by rewrite String.eqb_refl in E.
Qed.

(** X13. With a non-empty column filter for the table and no transforms, the projected row has exactly the filtered columns that the row has, with their values. *)
Theorem projectRow_columnsFilter tables cf tid cs row k :
  oget tid cf = Some cs -> cs <> [] ->
  oget k (projectRow tables (Some cf) [] [] tid row) =
  if existsb (String.eqb k) cs then oget k row else None.
Proof.
  intros Hcf Hne. unfold projectRow. cbv zeta. rewrite Hcf.
  destruct cs as [|c cs]; [done|].
  match goal with |- oget k (applyTransforms ?o _ _ [] []) = _ => change (applyTransforms o _ _ [] []) with o end.
  rewrite project_fold. simpl. by destruct (oget k row), (_ || _).
Qed.

Lemma projectRow_columnsFilter_witness :
  oget "t" [("t", ["Id"])] = Some ["Id"] /\ ["Id"] <> [] /\
  oget "Name" (projectRow [] (Some [("t", ["Id"])]) [] [] "t" [("Id", VNum 1); ("Name", VStr "x")]) =
  (if existsb (String.eqb "Name") ["Id"] then oget "Name" [("Id", VNum 1); ("Name", VStr "x")] else None).
Proof.
  split; [reflexivity|]. split; [discriminate|].
  apply projectRow_columnsFilter; [reflexivity|discriminate].
Defined.

Lemma oget_not_key {A} k (o : list (string * A)) : existsb (String.eqb k) (map fst o) = false -> oget k o = None.
Proof.
  induction o as [|[k' v] o IH]; simpl; [done|].
  destruct (String.eqb k k'); [done|]. apply IH.
Qed.

Lemma filter_fold_lookup (keep : string -> bool) (o : obj) acc k :
  NoDup (map fst o) ->
  oget k (fold_left (fun filtered '(k', v) => if keep k' then oset k' v filtered else filtered) o acc) =
  if keep k && existsb (String.eqb k) (map fst o) then oget k o else oget k acc.
Proof.
  revert acc. induction o as [|[k' v] o IH]; intros acc Hnd; simpl.
  - by rewrite andb_false_r.
  - apply NoDup_cons in Hnd as [Hk' Hnd]. rewrite IH by done.
    destruct (String.eqb k k') eqn:E.
    + apply String.eqb_eq in E. subst k'.
      assert (Hx : existsb (String.eqb k) (map fst o) = false).
      { destruct existsb eqn:Ex; [|done]. apply existsb_exists in Ex as (y & Hy & Ey).
        apply String.eqb_eq in Ey. subst y. exfalso. apply Hk'. by apply list_elem_of_In. }
      rewrite Hx. destruct (keep k); simpl; [by rewrite oget_oset_eq|done].
    + simpl. destruct (keep k && existsb (String.eqb k) (map fst o)); [done|].
      destruct (keep k'); [|done]. apply oget_oset_ne. intros ->. by rewrite String.eqb_refl in E.
Qed.

(** X14. With a non-empty includedColumns, a nested object keeps a key exactly when it is listed or is the name of a table adjacent to the child table. *)
Theorem filterNestedCols_lookup tables rels rel ctid (o : obj) k inc :
  includedColumns rel = Some inc -> inc <> [] -> NoDup (map fst o) ->
  oget k (filterNestedCols tables rels rel ctid o) =
  if existsb (String.eqb k) inc || existsb (String.eqb k) (childTableNames tables rels ctid)
  then oget k o else None.
Proof.
  intros Hinc Hne Hnd. unfold filterNestedCols. rewrite Hinc.
  destruct inc as [|i inc]; [done|].
  pose proof (filter_fold_lookup (fun k => existsb (String.eqb k) (i :: inc) ||
                existsb (String.eqb k) (childTableNames tables rels ctid)) o [] k Hnd) as E.
  cbv beta in E. rewrite E. clear E.
  destruct (_ || _); simpl; [|done].
  destruct (existsb (String.eqb k) (map fst o)) eqn:Ex; [done|]. by rewrite oget_not_key.
Qed.

Lemma filterNestedCols_lookup_witness :
  includedColumns edgeAB_val = Some ["val"] /\ ["val"] <> [] /\
  NoDup (map fst [("id", VNum 10); ("val", VStr "x")]) /\
  oget "id" (filterNestedCols [tableA; tableB] [edgeAB_val] edgeAB_val "b" [("id", VNum 10); ("val", VStr "x")]) =
  (if existsb (String.eqb "id") ["val"] || existsb (String.eqb "id") (childTableNames [tableA; tableB] [edgeAB_val] "b")
   then oget "id" [("id", VNum 10); ("val", VStr "x")] else None).
Proof.
  assert (Hnd : NoDup (map fst [("id", VNum 10); ("val", VStr "x")])) 
    by (simpl; constructor; [rewrite list_elem_of_singleton; discriminate|apply NoDup_singleton]).
  split; [reflexivity|]. split; [discriminate|]. split; [exact Hnd|].
  apply filterNestedCols_lookup; [reflexivity|discriminate|exact Hnd].
Defined.

(** X15. An edge is only ever skipped by the depth checks when it is recursive: the separate parent back-reference branch never fires. *)
Theorem edge_blocked_only_recursive rel tid parent d c :
  is_recursive tid parent c = false -> edge_blocked rel tid parent d c = false.
Proof.
  intros H. unfold edge_blocked. rewrite H. unfold is_recursive in H.
  by apply orb_false_iff in H as [H _].
Qed.

Lemma edge_blocked_only_recursive_witness :
  is_recursive "b" (Some "a") "c" = false /\ edge_blocked (edge "b" "c" "id" "b_id") "b" (Some "a") 0 "c" = false.
Proof. split; [reflexivity|]. apply edge_blocked_only_recursive. reflexivity. Defined.

Lemma bind_done {A B} (m : M A) (f : A -> M B) s b s' :
  bind m f s = Done b s' -> exists a s1, m s = Done a s1 /\ f a s1 = Done b s'.
Proof. unfold bind. destruct (m s) as [a s1| | | |]; try discriminate. eauto. Qed.

Lemma mfold_inv {A B} (P : A -> Prop) (g : A -> B -> M A) xs a s o s' :
  (forall a x s o s', In x xs -> P a -> g a x s = Done o s' -> P o) ->
  P a -> mfold g a xs s = Done o s' -> P o.
Proof.
  revert a s. induction xs as [|x xs IH]; intros a s Hg Ha; simpl.
  - unfold ret. by intros [= <- _].
  - intros E. apply bind_done in E as (a1 & s1 & E1 & E2).
    apply (IH a1 s1); [intros; eapply Hg; eauto; simpl; auto|eapply Hg; eauto; simpl; auto|done].
Qed.

Lemma mmap_length {A B} (f : A -> M B) xs s ys s' : mmap f xs s = Done ys s' -> length ys = length xs.
Proof.
  revert s ys s'. induction xs as [|x xs IH]; intros s ys s'; simpl.
  - unfold ret. by intros [= <- _].
  - intros E. apply bind_done in E as (y & s1 & _ & E).
    apply bind_done in E as (zs & s2 & E & E'). unfold ret in E'. injection E' as <- _.
    simpl. f_equal. by apply (IH s1 zs s2).
Qed.

(** X16. Without relationships, the document is the lead table's name mapped to the projected lead row. *)
Theorem buildJoinedDocument_no_relationships lt i tables opts t row :
  tableMap_get tables lt = Some t -> (0 <= i)%Z -> nth_error (rows t) (Z.to_nat i) = Some row ->
  buildJoinedDocument lt i tables [] opts =
  JOk [(name t, VObj None (projectRow tables (options_columnsFilter opts) (options_columnSplits opts)
                             (options_tablePivots opts) lt row))].
Proof.
  intros Ht Hi Hr. unfold buildJoinedDocument. rewrite Ht.
  apply Z.leb_le in Hi. rewrite Hi, Hr. cbv zeta. unfold fuel. cbn [buildNested].
  destruct (decide _) as [Hin|_]; [set_solver|].
  reflexivity.
Qed.

Lemma buildJoinedDocument_no_relationships_witness :
  tableMap_get [tableA; tableB] "a" = Some tableA /\ (0 <= 1)%Z /\
  nth_error (rows tableA) (Z.to_nat 1) = Some [("id", VNum 2); ("b_id", VNum 11)] /\
  buildJoinedDocument "a" 1 [tableA; tableB] [] None =
  JOk [(name tableA, VObj None (projectRow [tableA; tableB] (options_columnsFilter None)
         (options_columnSplits None) (options_tablePivots None) "a" [("id", VNum 2); ("b_id", VNum 11)]))].
Proof.
  split; [reflexivity|]. split; [lia|]. split; [reflexivity|].
  apply buildJoinedDocument_no_relationships; [reflexivity|lia|reflexivity].
Defined.

Lemma relStep_frame tables rels pivots build tid row parent d projected rel s o s' k :
  relStep tables rels pivots build tid row parent d projected rel s = Done o s' ->
  ~ In k (map name tables) -> propertyName rel <> Some k ->
  (forall p, In p pivots -> pivot_tableId p = tid -> arrayName p <> k) ->
  oget k o = oget k projected.
Proof.
  intros E Hn Hp Hpv. unfold relStep in E. cbv zeta in E.
  destruct edge_blocked; [unfold ret in E; by injection E as <- _|].
  destruct (tableMap_get tables (childTableIdOf rel tid)) as [ct|] eqn:Ect;
    [|unfold ret in E; by injection E as <- _].
  destruct (findPivotInfo tables pivots tid (localColOf rel tid)) as [[p sib]|] eqn:Ep.
  - apply findPivotInfo_spec in Ep as [Hp1 Hp2].
    unfold pivotJoin in E.
    destruct (oget (arrayName p) projected) as [[| | | |r arr|]|];
      try (unfold ret in E; by injection E as <- _).
    destruct (tableMap_get tables tid) as [tbl|]; [|discriminate].
    apply bind_done in E as (arr' & s1 & _ & E). unfold ret in E. injection E as <- _.
    apply oget_oset_ne. by apply Hpv.
  - unfold plainJoin in E.
    assert (Hpn : (match propertyName rel with Some p => p | None => name ct end) <> k).
    { destruct (propertyName rel) as [pn|]; [congruence|].
      intros <-. apply Hn. apply in_map. by apply tableMap_get_spec in Ect as [? _]. }
    destruct (matchRows _ _ _) as [|m ms]; [unfold ret in E; by injection E as <- _|].
    apply bind_done in E as (nested & s1 & _ & E).
    destruct (type rel) as [[]|]; [| |]; repeat case_match;
      unfold ret in E; injection E as <- _; by apply oget_oset_ne.
Qed.

(** X17. A key of the projected lead row that is no table name, no relationship's property name and no pivot array name of the lead table keeps its projected value in the document. *)
Theorem buildJoinedDocument_keeps_lead_columns lt i tables rels opts t row n o k :
  tableMap_get tables lt = Some t -> (0 <= i)%Z -> nth_error (rows t) (Z.to_nat i) = Some row ->
  buildJoinedDocument lt i tables rels opts = JOk [(n, VObj None o)] ->
  ~ In k (map name tables) -> (forall r, In r rels -> propertyName r <> Some k) ->
  (forall p, In p (options_tablePivots opts) -> pivot_tableId p = lt -> arrayName p <> k) ->
  oget k o = oget k (projectRow tables (options_columnsFilter opts) (options_columnSplits opts)
                       (options_tablePivots opts) lt row).
Proof.
  intros Ht Hi Hr E Hn Hrel Hpv. unfold buildJoinedDocument in E. rewrite Ht in E.
  apply Z.leb_le in Hi. rewrite Hi, Hr in E. cbv zeta in E. unfold fuel in E. cbn [buildNested] in E.
  destruct (decide _) as [Hin|_]; [set_solver|].
  fold (options_columnsFilter opts) (options_columnSplits opts) (options_tablePivots opts) in E.
  destruct (mfold _ _ _ _) as [o' s'| | | |] eqn:Em; try discriminate.
  injection E as _ <-.
  refine (mfold_inv (fun o => oget k o = oget k _) _ _ _ _ _ _ _ _ Em); [|done].
  intros a rel s0 o0 s0' Hin Ha Es. simpl in Ha. rewrite <- Ha.
  apply (relStep_frame _ _ _ _ _ _ _ _ _ _ _ _ _ _ Es Hn); [|done].
  apply Hrel. unfold relsOf in Hin. by apply filter_In in Hin as [? _].
Qed.

Lemma buildJoinedDocument_keeps_lead_columns_witness :
  oget "id" [("id", VNum 1); ("b_id", VNum 10); ("B", VArr None [VObj None [("id", VNum 10); ("val", VStr "x")]])] =
  oget "id" (projectRow [tableA; tableB] (options_columnsFilter None) (options_columnSplits None)
               (options_tablePivots None) "a" [("id", VNum 1); ("b_id", VNum 10)]).
Proof.
  apply (buildJoinedDocument_keeps_lead_columns "a" 0 [tableA; tableB] [edge "a" "b" "b_id" "id"] None
           tableA _ "A").
  - reflexivity.
  - lia.
  - reflexivity.
  - vm_compute. reflexivity.
  - simpl. intros [H|[H|[]]]; discriminate.
  - intros r [<-|[]]. discriminate.
  - intros p [].
Defined.

(** X18. Joining through a pivot keeps the number of pivot array elements and changes no other key. *)
Theorem pivotJoin_keeps_elements tables rels build rel tid row cd ct pivot sib projected s o s' r xs :
  oget (arrayName pivot) projected = Some (VArr r xs) ->
  pivotJoin tables rels build rel tid row cd ct pivot sib projected s = Done o s' ->
  exists ys, oget (arrayName pivot) o = Some (VArr r ys) /\ length ys = length xs /\
    (forall k, k <> arrayName pivot -> oget k o = oget k projected).
Proof.
  intros Ha E. unfold pivotJoin in E. rewrite Ha in E.
  destruct (tableMap_get tables tid) as [tbl|]; [|discriminate].
  apply bind_done in E as (arr' & s1 & Em & E). unfold ret in E. injection E as <- _.
  exists arr'. split; [apply oget_oset_eq|]. split.
  - refine (mfold_inv (fun a => length a = length xs) _ _ _ _ _ _ _ _ Em); [|done].
    intros a it s0 a' s0' _ Hl Es. rewrite <- Hl. unfold pivotElemStep in Es. cbv zeta in Es.
    destruct (oget (snd it) sib) as [colName|]; [|unfold ret in Es; by injection Es as <- _].
    destruct (_ || _); [unfold ret in Es; by injection Es as <- _|].
    destruct (matchRows _ _ _) as [|m ms]; [unfold ret in Es; by injection Es as <- _|].
    apply bind_done in Es as (nested & s2 & _ & Es).
    unfold setElementProp in Es. repeat case_match; try discriminate.
    all: unfold ret in Es; injection Es as <- _; apply length_insert.
  - intros k Hk. by apply oget_oset_ne.
Qed.

Lemma pivotJoin_keeps_elements_witness :
  exists o s' ys,
    pivotJoin [tableT; tableK] [edge "t" "c" "Item1" "k"]
      (buildNested [tableT; tableK] [edge "t" "c" "Item1" "k"] None [] [itemsPivot]
         (fuel [tableT; tableK] [edge "t" "c" "Item1" "k"]))
      (edge "t" "c" "Item1" "k") "t" [("Item1", VNum 1); ("Item2", VNum 2)] 0 tableK itemsPivot
      (matchGroupColumns ["Item1"; "Item2"] "Item")
      [("Items", VArr None [VObj None [("Item", VNum 1)]; VObj None [("Item", VNum 2)]])] ∅ = Done o s' /\
    oget "Items" o = Some (VArr None ys) /\ length ys = 2%nat.
Proof.
  destruct (pivotJoin [tableT; tableK] [edge "t" "c" "Item1" "k"]
      (buildNested [tableT; tableK] [edge "t" "c" "Item1" "k"] None [] [itemsPivot]
         (fuel [tableT; tableK] [edge "t" "c" "Item1" "k"]))
      (edge "t" "c" "Item1" "k") "t" [("Item1", VNum 1); ("Item2", VNum 2)] 0 tableK itemsPivot
      (matchGroupColumns ["Item1"; "Item2"] "Item")
      [("Items", VArr None [VObj None [("Item", VNum 1)]; VObj None [("Item", VNum 2)]])] ∅)
    as [o s'| | | |] eqn:E; try (vm_compute in E; discriminate).
  pose proof (fun H => pivotJoin_keeps_elements _ _ _ _ _ _ _ _ _ _ _ _ _ _ None
              [VObj None [("Item", VNum 1)]; VObj None [("Item", VNum 2)]] H E) as W.
  destruct (W eq_refl) as (ys & Hys & Hl & _).
  exists o, s', ys. split; [done|]. split; [done|]. exact Hl.
Defined.

Lemma uniqBy_nonempty xs : xs <> [] -> uniqBy xs <> [].
Proof. destruct xs as [|x xs]; [done|]. by destruct (uniqBy_cons x xs) as [ys ->]. Qed.

(** X19. A non-pivot join that is not one-to-one either leaves the object unchanged or stores under the property name a non-empty array with no two JSON-equal entries, changing no other key. *)
Theorem plainJoin_many_distinct tables rels build rel tid row cd ct projected s o s' :
  type rel <> Some OneToOne ->
  plainJoin tables rels build rel tid row cd ct projected s = Done o s' ->
  o = projected \/
  exists ys, oget (match propertyName rel with Some p => p | None => name ct end) o = Some (VArr None ys) /\
    ys <> [] /\ json_distinct ys /\
    (forall k, k <> (match propertyName rel with Some p => p | None => name ct end) ->
       oget k o = oget k projected).
Proof.
  intros Hty E. unfold plainJoin in E. cbv zeta in E.
  destruct (matchRows _ _ _) as [|m ms] eqn:Em; [left; unfold ret in E; by injection E as <- _|right].
  apply bind_done in E as (nestedRaw & s1 & Emm & E).
  apply mmap_length in Emm. destruct nestedRaw as [|x rest]; [done|].
  destruct (uniqBy_cons x rest) as [zs Hz].
  set (pn := match propertyName rel with Some p => p | None => name ct end) in *.
  destruct (type rel) as [[]|]; [|done|]; try done; destruct (truthy _);
    unfold ret in E; injection E as <- _.
  all: match goal with |- exists ys, oget ?p (oset ?p (VArr None ?l) _) = _ /\ _ => exists l end.
  all: rewrite oget_oset_eq; split; [done|].
  all: split; [|split; [apply (proj1 (proj2 (uniq_go_spec [] _)))|intros k Hk; by apply oget_oset_ne]].
  all: try (rewrite Hz; discriminate).
  all: apply uniqBy_nonempty; rewrite Hz; intros Ha; apply app_eq_nil in Ha as [_ ?]; discriminate.
Qed.

Lemma plainJoin_many_distinct_witness :
  exists o s' ys,
    plainJoin [tableA; tableB] [edge "a" "b" "b_id" "id"]
      (buildNested [tableA; tableB] [edge "a" "b" "b_id" "id"] None [] []
         (fuel [tableA; tableB] [edge "a" "b" "b_id" "id"]))
      (edge "a" "b" "b_id" "id") "a" [("id", VNum 1); ("b_id", VNum 10)] 0 tableB
      [("id", VNum 1); ("b_id", VNum 10)] ∅ = Done o s' /\
    oget "B" o = Some (VArr None ys) /\ ys <> [].
Proof.
  destruct (plainJoin [tableA; tableB] [edge "a" "b" "b_id" "id"]
      (buildNested [tableA; tableB] [edge "a" "b" "b_id" "id"] None [] []
         (fuel [tableA; tableB] [edge "a" "b" "b_id" "id"]))
      (edge "a" "b" "b_id" "id") "a" [("id", VNum 1); ("b_id", VNum 10)] 0 tableB
      [("id", VNum 1); ("b_id", VNum 10)] ∅)
    as [o s'| | | |] eqn:E; try (vm_compute in E; discriminate).
  pose proof (fun H => plainJoin_many_distinct _ _ _ _ _ _ _ _ _ _ _ _ H E) as W.
  destruct (W ltac:(intros Hc; simpl in Hc; discriminate Hc)) as [Eo|(ys & Hys & Hn & _)].
  - subst o. vm_compute in E. congruence.
  - exists o, s', ys. split; [done|]. split; [exact Hys|exact Hn].
Defined.
